(** * NetworkInterface: ARP resolution between IP datagrams and Ethernet frames

    A shallow embedding of [src/Network Interface/src/network_interface.cc].
    The interface owns an ARP cache ([arp_table_]), a table of datagrams
    waiting for an address ([queue_table_]), a queue of frames ready to be
    sent ([frame_queue_]) and a millisecond clock ([curr_time_]).  Every
    member function becomes a function on an explicit state record. *)

From Stdlib Require Import ZArith Lia List.
From stdpp Require Import gmap list fin_maps.

Local Open Scope Z_scope.

(** ** Collaborators

    The headers [ethernet_frame.hh], [ethernet_header.hh], [arp_message.hh]
    and [ipv4_datagram.hh] are not part of the sources.  What the interface
    uses of them is taken as a parameter: the hardware address type with its
    equality, the broadcast and all-zero addresses, the two EtherType
    constants (which must differ for the ARP branch of [recv_frame] to be
    reachable at all), the two ARP opcodes, and the (de)serialisers. *)

Class LinkLayer := {
  EthernetAddress : Type;
  EthernetAddress_eq_dec :: EqDecision EthernetAddress;
  (** [ETHERNET_BROADCAST] *)
  ETHERNET_BROADCAST : EthernetAddress;
  (** [EthernetAddress{0}] *)
  ETHERNET_ZERO : EthernetAddress;
  (** [EthernetHeader::TYPE_IPv4], a [uint16_t] *)
  TYPE_IPv4 : Z;
  (** [EthernetHeader::TYPE_ARP], a [uint16_t] *)
  TYPE_ARP : Z;
  TYPE_IPv4_ne_ARP : TYPE_IPv4 ≠ TYPE_ARP;
  (** [ARPMessage::OPCODE_REQUEST], a [uint16_t] *)
  OPCODE_REQUEST : Z;
  (** [ARPMessage::OPCODE_REPLY], a [uint16_t] *)
  OPCODE_REPLY : Z;
  OPCODE_REQUEST_ne_REPLY : OPCODE_REQUEST ≠ OPCODE_REPLY
}.

Section Frames.
Context `{LinkLayer}.

(** Modelled from the spec: [EthernetHeader] is declared in
    [ethernet_header.hh], which is not among the sources.  The spec gives the
    header as destination and source hardware address and EtherType; the
    field names are the ones [network_interface.cc] uses. *)
Record EthernetHeader := {
  dst : EthernetAddress;
  src : EthernetAddress;
  type : Z
}.

(** Modelled from the spec: [EthernetFrame] is declared in
    [ethernet_frame.hh], which is not among the sources.  A header and the
    payload bytes. *)
Record EthernetFrame := {
  header : EthernetHeader;
  payload : list Byte.byte
}.

(** Modelled from the spec: [ARPMessage] is declared in [arp_message.hh],
    which is not among the sources.  The spec lists the opcode and the
    sender's and target's hardware and IP address, which are the fields
    [network_interface.cc] reads and writes. *)
Record ARPMessage := {
  opcode : Z;
  sender_ethernet_address : EthernetAddress;
  sender_ip_address : Z;
  target_ethernet_address : EthernetAddress;
  target_ip_address : Z
}.
End Frames.

Class Codec `{LinkLayer} := {
  InternetDatagram : Type;
  (** [serialize(dgram)] *)
  serialize_dgram : InternetDatagram → list Byte.byte;
  (** [parse(dgram, payload)]: [Some] when it returns true *)
  parse_dgram : list Byte.byte → option InternetDatagram;
  (** [serialize(arpmsg)] *)
  serialize_arp : ARPMessage → list Byte.byte;
  (** [parse(arpmsg, payload)]: [Some] when it returns true *)
  parse_arp : list Byte.byte → option ARPMessage
}.

(** ** Machine arithmetic and containers *)

(** [size_t] arithmetic wraps around; the width is that of an LP64 target. *)
Definition SIZE_WIDTH : Z := 64.
Definition wrap_size_t (z : Z) : Z := z mod 2 ^ SIZE_WIDTH.

(** [m[k]] of a C++ map: the value stored at [k]; when [k] is absent a
    value-initialised entry is inserted first. *)
Definition subscript {V : Type} (dflt : V) (m : gmap Z V) (k : Z) : V * gmap Z V :=
  match m !! k with
  | Some v => (v, m)
  | None => (dflt, <[k := dflt]> m)
  end.

Section Interface.
Context `{Codec}.

(** ** State *)

(** Modelled from the spec: the members are declared in
    [network_interface.hh], which is not among the sources.  The spec has a
    cache from IP address to hardware address and insertion time, a table
    from IP address to the time of the last request and the queue of waiting
    datagrams, a FIFO of frames, the two local addresses and a clock;
    [network_interface.cc] keeps the time in the first component of each
    table's pairs and counts it in [size_t]. *)
Record NetworkInterface := {
  ethernet_address_ : EthernetAddress;
  (** [ip_address_.ipv4_numeric()] *)
  ip_address_ : Z;
  (** IP address to (time learned, hardware address) *)
  arp_table_ : gmap Z (Z * EthernetAddress);
  (** IP address to (time of the ARP request, waiting datagrams); the
      queue's front is the head of the list *)
  queue_table_ : gmap Z (Z * list InternetDatagram);
  (** oldest frame first *)
  frame_queue_ : list EthernetFrame;
  curr_time_ : Z
}.

Definition set_arp_table (m : gmap Z (Z * EthernetAddress)) (s : NetworkInterface) :=
  {| ethernet_address_ := ethernet_address_ s; ip_address_ := ip_address_ s;
     arp_table_ := m; queue_table_ := queue_table_ s;
     frame_queue_ := frame_queue_ s; curr_time_ := curr_time_ s |}.

Definition set_queue_table (m : gmap Z (Z * list InternetDatagram)) (s : NetworkInterface) :=
  {| ethernet_address_ := ethernet_address_ s; ip_address_ := ip_address_ s;
     arp_table_ := arp_table_ s; queue_table_ := m;
     frame_queue_ := frame_queue_ s; curr_time_ := curr_time_ s |}.

Definition set_frame_queue (q : list EthernetFrame) (s : NetworkInterface) :=
  {| ethernet_address_ := ethernet_address_ s; ip_address_ := ip_address_ s;
     arp_table_ := arp_table_ s; queue_table_ := queue_table_ s;
     frame_queue_ := q; curr_time_ := curr_time_ s |}.

Definition set_curr_time (t : Z) (s : NetworkInterface) :=
  {| ethernet_address_ := ethernet_address_ s; ip_address_ := ip_address_ s;
     arp_table_ := arp_table_ s; queue_table_ := queue_table_ s;
     frame_queue_ := frame_queue_ s; curr_time_ := t |}.

(** [frame_queue_.push(frame)] *)
Definition push_frame (frame : EthernetFrame) (s : NetworkInterface) :=
  set_frame_queue (frame_queue_ s ++ [frame]) s.

(** Modelled from the spec: the constructor stores the two addresses; the
    initialisers of the other members are in [network_interface.hh], which
    is not among the sources.  Both tables and the frame queue start empty
    and the clock, a count of elapsed milliseconds, at zero. *)
Definition new_interface (ethernet_address : EthernetAddress) (ip_address : Z) :=
  {| ethernet_address_ := ethernet_address; ip_address_ := ip_address;
     arp_table_ := ∅; queue_table_ := ∅; frame_queue_ := []; curr_time_ := 0 |}.

(** ** Frames built by the interface *)

(** The IPv4 frame carrying [dgram] to [mac]. *)
Definition ipv4_frame (s : NetworkInterface) (mac : EthernetAddress)
    (dgram : InternetDatagram) : EthernetFrame :=
  {| header := {| dst := mac; src := ethernet_address_ s; type := TYPE_IPv4 |};
     payload := serialize_dgram dgram |}.

(** The ARP request broadcast for [ip_next_hop_32b]. *)
Definition arp_request (s : NetworkInterface) (ip_next_hop_32b : Z) : ARPMessage :=
  {| opcode := OPCODE_REQUEST;
     sender_ethernet_address := ethernet_address_ s;
     sender_ip_address := ip_address_ s;
     target_ethernet_address := ETHERNET_ZERO;
     target_ip_address := ip_next_hop_32b |}.

Definition arp_request_frame (s : NetworkInterface) (ip_next_hop_32b : Z) : EthernetFrame :=
  {| header := {| dst := ETHERNET_BROADCAST; src := ethernet_address_ s; type := TYPE_ARP |};
     payload := serialize_arp (arp_request s ip_next_hop_32b) |}.

(** The message [recv_frame] turns a request into, in place. *)
Definition arp_reply (s : NetworkInterface) (arpmsg : ARPMessage) : ARPMessage :=
  {| opcode := OPCODE_REPLY;
     sender_ethernet_address := ethernet_address_ s;
     sender_ip_address := ip_address_ s;
     target_ethernet_address := sender_ethernet_address arpmsg;
     target_ip_address := sender_ip_address arpmsg |}.

Definition arp_reply_frame (s : NetworkInterface) (arpmsg : ARPMessage) : EthernetFrame :=
  {| header := {| dst := target_ethernet_address (arp_reply s arpmsg);
                  src := ethernet_address_ s; type := TYPE_ARP |};
     payload := serialize_arp (arp_reply s arpmsg) |}.

(** ** send_datagram *)

Definition send_datagram (s : NetworkInterface) (dgram : InternetDatagram)
    (next_hop : Z) : NetworkInterface :=
  let ip_next_hop_32b := next_hop in
  match arp_table_ s !! ip_next_hop_32b with
  | Some (_, mac) =>
      push_frame (ipv4_frame s mac dgram) s
  | None =>
      match queue_table_ s !! ip_next_hop_32b with
      | Some (t, q) =>
          set_queue_table (<[ip_next_hop_32b := (t, q ++ [dgram])]> (queue_table_ s)) s
      | None =>
          push_frame (arp_request_frame s ip_next_hop_32b)
            (set_queue_table
               (<[ip_next_hop_32b := (curr_time_ s, [dgram])]> (queue_table_ s)) s)
      end
  end.

(** ** recv_frame *)

(** The body of the [while] loop, iterated over the queue [q] stored at
    [key] with request time [t]: one frame per datagram is pushed and the
    datagram popped. *)
Fixpoint drain_queue (key : Z) (mac : EthernetAddress) (t : Z)
    (q : list InternetDatagram) (s : NetworkInterface) : NetworkInterface :=
  match q with
  | [] => s
  | front :: q' =>
      drain_queue key mac t q'
        (set_queue_table (<[key := (t, q')]> (queue_table_ s))
           (push_frame (ipv4_frame s mac front) s))
  end.

(** The loop [while (!queue_table_[arpmsg.sender_ip_address].second.empty())],
    reading the sender fields of [arpmsg] as they are when the loop starts. *)
Definition flush_waiting (arpmsg : ARPMessage) (s : NetworkInterface) : NetworkInterface :=
  let key := sender_ip_address arpmsg in
  let '((t, q), table) := subscript (0, []) (queue_table_ s) key in
  drain_queue key (sender_ethernet_address arpmsg) t q (set_queue_table table s).

Definition recv_frame (s : NetworkInterface) (frame : EthernetFrame)
    : option InternetDatagram * NetworkInterface :=
  let packet_dst := dst (header frame) in
  let packet_type := type (header frame) in
  let ip_addr_32b := ip_address_ s in
  if bool_decide (packet_dst = ethernet_address_ s)
     || bool_decide (packet_dst = ETHERNET_BROADCAST) then
    if bool_decide (packet_type = TYPE_IPv4) then
      match parse_dgram (payload frame) with
      | Some dgram => (Some dgram, s)
      | None => (None, s)
      end
    else if bool_decide (packet_type = TYPE_ARP) then
      match parse_arp (payload frame) with
      | Some arpmsg =>
          let s1 :=
            set_arp_table
              (<[sender_ip_address arpmsg :=
                   (curr_time_ s, sender_ethernet_address arpmsg)]> (arp_table_ s)) s in
          let '(arpmsg', s2) :=
            if bool_decide (opcode arpmsg = OPCODE_REQUEST)
               && bool_decide (target_ip_address arpmsg = ip_addr_32b)
            then (arp_reply s arpmsg, push_frame (arp_reply_frame s arpmsg) s1)
            else (arpmsg, s1) in
          (None, flush_waiting arpmsg' s2)
      | None => (None, s)
      end
    else (None, s)
  else (None, s).

(** ** tick and erase_expired_item *)

(** The keys collected in [discard_ip]. *)
Definition discard_ip {V : Type} (curr_time : Z) (map : gmap Z (Z * V))
    (expire_time : Z) : list Z :=
  omap (λ ip : Z * (Z * V),
          let time_diff := wrap_size_t (curr_time - ip.2.1) in
          if bool_decide (time_diff > expire_time) then Some ip.1 else None)
       (map_to_list map).

Definition erase_expired_item {V : Type} (curr_time : Z) (map : gmap Z (Z * V))
    (expire_time : Z) : gmap Z (Z * V) :=
  foldl (λ m ip, delete ip m) map (discard_ip curr_time map expire_time).

Definition tick (s : NetworkInterface) (ms_since_last_tick : Z) : NetworkInterface :=
  let s1 := set_curr_time (wrap_size_t (curr_time_ s + ms_since_last_tick)) s in
  let s2 := set_arp_table (erase_expired_item (curr_time_ s1) (arp_table_ s1) 30000) s1 in
  set_queue_table (erase_expired_item (curr_time_ s2) (queue_table_ s2) 5000) s2.

(** ** maybe_send *)

Definition maybe_send (s : NetworkInterface) : option EthernetFrame * NetworkInterface :=
  match frame_queue_ s with
  | [] => (None, s)
  | oldest_packet :: rest => (Some oldest_packet, set_frame_queue rest s)
  end.

End Interface.

(** ** Runs of the interface *)

Section Runs.
Context `{Codec}.

(** Successive calls of [tick]. *)
Definition ticks (s : NetworkInterface) (ms : list Z) : NetworkInterface :=
  foldl tick s ms.

(** Successive calls of [send_datagram] with the same next hop. *)
Definition send_all (s : NetworkInterface) (dgrams : list InternetDatagram)
    (next_hop : Z) : NetworkInterface :=
  foldl (λ s' dgram, send_datagram s' dgram next_hop) s dgrams.

Definition total (ms : list Z) : Z := foldr Z.add 0 ms.

(** The frame passes the destination test of [recv_frame]. *)
Definition addressed_to (s : NetworkInterface) (frame : EthernetFrame) : Prop :=
  dst (header frame) = ethernet_address_ s ∨ dst (header frame) = ETHERNET_BROADCAST.

(** The frame reaches the ARP branch of [recv_frame] and decodes to [arpmsg]. *)
Definition carries_arp (s : NetworkInterface) (frame : EthernetFrame)
    (arpmsg : ARPMessage) : Prop :=
  addressed_to s frame ∧ type (header frame) = TYPE_ARP
  ∧ parse_arp (payload frame) = Some arpmsg.

(** The message is a request for the address of this interface, the case in
    which [recv_frame] rewrites it into the reply. *)
Definition request_for_us (s : NetworkInterface) (arpmsg : ARPMessage) : Prop :=
  opcode arpmsg = OPCODE_REQUEST ∧ target_ip_address arpmsg = ip_address_ s.

(** The entry [queue_table_[key]] evaluates to. *)
Definition waiting_entry (s : NetworkInterface) (key : Z) : Z * list InternetDatagram :=
  default (0, []) (queue_table_ s !! key).

(** No entry of [queue_table_] has an empty queue. *)
Definition no_empty_queue (s : NetworkInterface) : Prop :=
  map_Forall (λ _ (entry : Z * list InternetDatagram), entry.2 ≠ []) (queue_table_ s).

(** The states the four operations can produce from a fresh interface, the
    clock staying within [size_t]. *)
Inductive reachable : NetworkInterface → Prop :=
| reachable_new ethernet_address ip_address :
    reachable (new_interface ethernet_address ip_address)
| reachable_send s dgram next_hop :
    reachable s → reachable (send_datagram s dgram next_hop)
| reachable_recv s frame :
    reachable s → reachable (recv_frame s frame).2
| reachable_tick s ms :
    reachable s → 0 ≤ ms → curr_time_ s + ms < 2 ^ SIZE_WIDTH →
    reachable (tick s ms)
| reachable_maybe_send s :
    reachable s → reachable (maybe_send s).2.

(** What holds of the time stamps in every reachable state: they lie in the
    past, a cached address is at most 30000 ms old, and a waiting entry is
    never younger than the cached address of the same IP. *)
Record stamps_ok (s : NetworkInterface) : Prop := {
  clock_range : 0 ≤ curr_time_ s < 2 ^ SIZE_WIDTH;
  arp_stamp : ∀ ip t mac,
    arp_table_ s !! ip = Some (t, mac) → 0 ≤ t ≤ curr_time_ s ∧ curr_time_ s - t ≤ 30000;
  queue_stamp : ∀ ip t q,
    queue_table_ s !! ip = Some (t, q) → 0 ≤ t ≤ curr_time_ s;
  queue_before_arp : ∀ ip t mac t' q,
    arp_table_ s !! ip = Some (t, mac) → queue_table_ s !! ip = Some (t', q) → t' ≤ t
}.

(** Up to [n] successive calls of [maybe_send], stopping at the first call
    that returns nothing: the frames returned, oldest first, and the state
    left. *)
Fixpoint drain_frames (n : nat) (s : NetworkInterface)
    : list EthernetFrame * NetworkInterface :=
  match n with
  | O => ([], s)
  | S n' =>
      match maybe_send s with
      | (Some frame, s') =>
          let '(frames, s'') := drain_frames n' s' in (frame :: frames, s'')
      | (None, s') => ([], s')
      end
  end.

(** An entry of [queue_table_] with an empty queue belongs to the local IP
    address or to an IP address the cache holds. *)
Definition empty_shadowed (s : NetworkInterface) : Prop :=
  ∀ ip t, queue_table_ s !! ip = Some (t, []) →
    ip = ip_address_ s ∨ is_Some (arp_table_ s !! ip).
End Runs.

(** ** A concrete instance

    Ethernet addresses as six octets, the constants of Ethernet and ARP, the
    ARP packet layout for IPv4 over Ethernet, and datagrams kept as their
    bytes (at least a 20-byte header). *)

Module Demo.
Definition octet (z : Z) : Byte.byte :=
  default Byte.x00 (Byte.of_N (Z.to_N (z mod 256))).

Definition octet_value (b : Byte.byte) : Z := Z.of_N (Byte.to_N b).

Fixpoint big_endian (n : nat) (z : Z) : list Byte.byte :=
  match n with
  | O => []
  | S n' => octet (z / 256 ^ Z.of_nat n') :: big_endian n' z
  end.

Definition from_big_endian (l : list Byte.byte) : Z :=
  foldl (λ acc b, acc * 256 + octet_value b) 0 l.

#[local] Instance link : LinkLayer := {|
  EthernetAddress := list Z;
  ETHERNET_BROADCAST := [255; 255; 255; 255; 255; 255];
  ETHERNET_ZERO := [0; 0; 0; 0; 0; 0];
  TYPE_IPv4 := 0x800;
  TYPE_ARP := 0x806;
  TYPE_IPv4_ne_ARP := ltac:(discriminate);
  OPCODE_REQUEST := 1;
  OPCODE_REPLY := 2;
  OPCODE_REQUEST_ne_REPLY := ltac:(discriminate)
|}.

Definition arp_bytes (m : ARPMessage) : list Byte.byte :=
  big_endian 2 1 ++ big_endian 2 0x800 ++ [octet 6; octet 4]
  ++ big_endian 2 (opcode m)
  ++ (octet <$> sender_ethernet_address m) ++ big_endian 4 (sender_ip_address m)
  ++ (octet <$> target_ethernet_address m) ++ big_endian 4 (target_ip_address m).

Definition arp_of_bytes (l : list Byte.byte) : option ARPMessage :=
  let field (from len : nat) := take len (drop from l) in
  let m := {| opcode := from_big_endian (field 6 2)%nat;
              sender_ethernet_address := octet_value <$> field 8%nat 6%nat;
              sender_ip_address := from_big_endian (field 14 4)%nat;
              target_ethernet_address := octet_value <$> field 18%nat 6%nat;
              target_ip_address := from_big_endian (field 24 4)%nat |} in
  if bool_decide (length l = 28%nat)
     && bool_decide (from_big_endian (field 0 2)%nat = 1)
     && bool_decide (from_big_endian (field 2 2)%nat = 0x800)
     && bool_decide (from_big_endian (field 4 1)%nat = 6)
     && bool_decide (from_big_endian (field 5 1)%nat = 4)
     && (bool_decide (opcode m = OPCODE_REQUEST) || bool_decide (opcode m = OPCODE_REPLY))
  then Some m else None.

#[local] Instance codec : Codec := {|
  InternetDatagram := list Byte.byte;
  serialize_dgram := λ d, d;
  parse_dgram := λ l, if bool_decide (20 ≤ length l)%nat then Some l else None;
  serialize_arp := arp_bytes;
  parse_arp := arp_of_bytes
|}.

(** Two hosts on one network. *)
Definition mac_a : EthernetAddress := [2; 0; 0; 0; 0; 10].
Definition mac_b : EthernetAddress := [2; 0; 0; 0; 0; 11].
Definition ip_a : Z := 0x01010101.
Definition ip_b : Z := 0x01010102.

Definition host_a : NetworkInterface := new_interface mac_a ip_a.

Definition dgram1 : InternetDatagram := repeat Byte.x45 20.
Definition dgram2 : InternetDatagram := repeat Byte.x46 20.

(** What host B sends to A: a reply, a request for A's address, and a
    request for some third address. *)
Definition arp_from_b (op target_ip : Z) : ARPMessage :=
  {| opcode := op;
     sender_ethernet_address := mac_b; sender_ip_address := ip_b;
     target_ethernet_address := mac_a; target_ip_address := target_ip |}.

Definition arp_frame_from_b (op target_ip : Z) : EthernetFrame :=
  {| header := {| dst := mac_a; src := mac_b; type := TYPE_ARP |};
     payload := serialize_arp (arp_from_b op target_ip) |}.

Definition reply_from_b : EthernetFrame := arp_frame_from_b OPCODE_REPLY ip_a.
Definition request_from_b : EthernetFrame := arp_frame_from_b OPCODE_REQUEST ip_a.

(** Host A with two datagrams waiting for B's address. *)
Definition a_waiting : NetworkInterface :=
  send_datagram (send_datagram host_a dgram1 ip_b) dgram2 ip_b.

(** Host A after B's reply, and after B's request for A's address. *)
Definition a_resolved : NetworkInterface := (recv_frame a_waiting reply_from_b).2.
Definition a_asked : NetworkInterface := (recv_frame a_waiting request_from_b).2.

(** Host A after a reply nobody asked for. *)
Definition a_told : NetworkInterface := (recv_frame host_a reply_from_b).2.

(** A frame for somebody else, and frames for A that do not decode. *)
Definition frame_for_other : EthernetFrame :=
  {| header := {| dst := mac_b; src := mac_a; type := TYPE_ARP |};
     payload := serialize_arp (arp_from_b OPCODE_REPLY ip_a) |}.
Definition bad_ipv4_frame : EthernetFrame :=
  {| header := {| dst := mac_a; src := mac_b; type := TYPE_IPv4 |}; payload := [] |}.
Definition good_ipv4_frame : EthernetFrame :=
  {| header := {| dst := mac_a; src := mac_b; type := TYPE_IPv4 |};
     payload := serialize_dgram dgram1 |}.

Definition ipv6_frame : EthernetFrame :=
  {| header := {| dst := mac_a; src := mac_b; type := 0x86DD |};
     payload := serialize_dgram dgram1 |}.
End Demo.

(** * Properties *)

(** ** Containers *)

Section Containers.
Context {V : Type}.
Implicit Types (m : gmap Z (Z * V)) (k : Z).

Lemma subscript_lookup {W : Type} (dflt : W) (mw : gmap Z W) k :
  (subscript dflt mw k).2 !! k = Some (subscript dflt mw k).1.
Proof.
  unfold subscript. destruct (mw !! k) eqn:E; simpl; [done|].
  by rewrite lookup_insert_eq.
Qed.

Lemma foldl_delete_lookup (l : list Z) m k :
  foldl (λ m' ip, delete ip m') m l !! k = if bool_decide (k ∈ l) then None else m !! k.
Proof.
  revert m. induction l as [|a l IH]; intros m.
  - case_bool_decide as Hin; [by apply elem_of_nil in Hin | done].
  - cbn [foldl]. rewrite IH.
    destruct (decide (k = a)) as [->|Hne].
    + rewrite lookup_delete_eq.
      rewrite (bool_decide_eq_true_2 (a ∈ a :: l)) by (by left).
      by case_bool_decide.
    + rewrite lookup_delete_ne by done.
      rewrite (bool_decide_ext (k ∈ a :: l) (k ∈ l)); [done|].
      rewrite elem_of_cons. split; [intros [?|?]; done | by right].
Qed.

Lemma elem_of_discard_ip now m e k :
  k ∈ discard_ip now m e ↔ ∃ t v, m !! k = Some (t, v) ∧ wrap_size_t (now - t) > e.
Proof.
  unfold discard_ip. rewrite list_elem_of_omap. split.
  - intros [[ip [t v]] [Hin Hf]]. simpl in Hf.
    apply elem_of_map_to_list in Hin.
    case_bool_decide; [|done]. injection Hf as <-. eauto.
  - intros (t & v & Hk & Hexp). exists (k, (t, v)). split.
    + by apply elem_of_map_to_list.
    + simpl. by rewrite bool_decide_eq_true_2.
Qed.

(** [erase_expired_item] keeps exactly the entries that are not older than
    [expire_time]. *)
Lemma erase_expired_item_lookup now m e k :
  erase_expired_item now m e !! k =
    match m !! k with
    | Some (t, v) => if bool_decide (wrap_size_t (now - t) > e) then None else Some (t, v)
    | None => None
    end.
Proof.
  unfold erase_expired_item. rewrite foldl_delete_lookup.
  destruct (m !! k) as [[t v]|] eqn:Hk.
  - destruct (decide (wrap_size_t (now - t) > e)) as [Hexp|Hexp].
    + rewrite (bool_decide_eq_true_2 _ Hexp).
      rewrite bool_decide_eq_true_2; [done|]. apply elem_of_discard_ip; eauto.
    + rewrite (bool_decide_eq_false_2 _ Hexp).
      rewrite bool_decide_eq_false_2; [done|].
      intros (t' & v' & Hk' & Hexp')%elem_of_discard_ip. congruence.
  - by case_bool_decide.
Qed.

Lemma erase_expired_item_delete now m e k :
  erase_expired_item now (delete k m) e = delete k (erase_expired_item now m e).
Proof.
  apply map_eq. intros j. rewrite erase_expired_item_lookup.
  destruct (decide (j = k)) as [->|Hne].
  - by rewrite !lookup_delete_eq.
  - by rewrite !lookup_delete_ne, erase_expired_item_lookup.
Qed.
End Containers.

(** ** The operations, one at a time *)

Section Operations.
Context `{Codec}.
Implicit Types (s : NetworkInterface) (frame : EthernetFrame) (arpmsg : ARPMessage).

Lemma drain_queue_eq key mac t q s :
  drain_queue key mac t q s =
    set_queue_table
      (match q with
       | [] => queue_table_ s
       | _ :: _ => <[key := (t, [])]> (queue_table_ s)
       end)
      (set_frame_queue (frame_queue_ s ++ (ipv4_frame s mac <$> q)) s).
Proof.
  revert s. induction q as [|front q IH]; intros s.
  - destruct s; cbn. by rewrite app_nil_r.
  - cbn [drain_queue]. rewrite IH. destruct s as [mac0 ip0 arp0 qt0 fq0 now0].
    unfold set_queue_table, set_frame_queue, push_frame, ipv4_frame; cbn.
    rewrite <- app_assoc. f_equal.
    destruct q; [done | by rewrite insert_insert_eq].
Qed.

(** The loop leaves an entry with an empty queue at the key it read. *)
Lemma flush_waiting_eq arpmsg s :
  flush_waiting arpmsg s =
    set_queue_table
      (<[sender_ip_address arpmsg :=
           ((waiting_entry s (sender_ip_address arpmsg)).1, [])]> (queue_table_ s))
      (set_frame_queue
         (frame_queue_ s
          ++ (ipv4_frame s (sender_ethernet_address arpmsg)
                <$> (waiting_entry s (sender_ip_address arpmsg)).2)) s).
Proof.
  unfold flush_waiting, waiting_entry, subscript.
  destruct s as [mac0 ip0 arp0 qt0 fq0 now0]; cbn.
  destruct (qt0 !! sender_ip_address arpmsg) as [[t q]|] eqn:Hq; cbn.
  - rewrite drain_queue_eq; cbn.
    unfold set_queue_table, set_frame_queue, ipv4_frame; cbn. f_equal.
    destruct q; [by rewrite insert_id | done].
  - unfold set_queue_table, set_frame_queue; cbn. by rewrite app_nil_r.
Qed.

Lemma recv_frame_arp s frame arpmsg :
  carries_arp s frame arpmsg →
  recv_frame s frame =
    (None,
     let s1 :=
       set_arp_table
         (<[sender_ip_address arpmsg :=
              (curr_time_ s, sender_ethernet_address arpmsg)]> (arp_table_ s)) s in
     if bool_decide (request_for_us s arpmsg)
     then flush_waiting (arp_reply s arpmsg) (push_frame (arp_reply_frame s arpmsg) s1)
     else flush_waiting arpmsg s1).
Proof.
  intros (Hdst & Hty & Hparse). unfold recv_frame.
  assert (bool_decide (dst (header frame) = ethernet_address_ s)
          || bool_decide (dst (header frame) = ETHERNET_BROADCAST) = true) as ->.
  { destruct Hdst as [Hd|Hd]; rewrite (bool_decide_eq_true_2 _ Hd);
      [done | apply orb_true_r]. }
  rewrite bool_decide_eq_false_2
    by (rewrite Hty; intros Heq; by apply TYPE_IPv4_ne_ARP).
  rewrite (bool_decide_eq_true_2 _ Hty), Hparse. cbn zeta.
  unfold request_for_us. rewrite bool_decide_and.
  by destruct (bool_decide (opcode arpmsg = OPCODE_REQUEST)
               && bool_decide (target_ip_address arpmsg = ip_address_ s)).
Qed.

Lemma set_queue_table_id s : set_queue_table (queue_table_ s) s = s.
Proof. by destruct s. Qed.

(** While the address is unknown and an entry is waiting, sending only
    appends to the entry's queue. *)
Lemma send_all_waiting s dgrams next_hop t q :
  arp_table_ s !! next_hop = None →
  queue_table_ s !! next_hop = Some (t, q) →
  send_all s dgrams next_hop =
    set_queue_table (<[next_hop := (t, q ++ dgrams)]> (queue_table_ s)) s.
Proof.
  revert s q. induction dgrams as [|dgram dgrams IH]; intros s q Harp Hq.
  - rewrite app_nil_r, insert_id by done. by rewrite set_queue_table_id.
  - cbn [send_all foldl]. fold (send_all (send_datagram s dgram next_hop) dgrams next_hop).
    assert (send_datagram s dgram next_hop =
            set_queue_table (<[next_hop := (t, q ++ [dgram])]> (queue_table_ s)) s) as ->.
    { unfold send_datagram. by rewrite Harp, Hq. }
    rewrite (IH _ (q ++ [dgram])); cbn; [| done | by rewrite lookup_insert_eq].
    rewrite insert_insert_eq, <- app_assoc. by destruct s.
Qed.

(** C3: when the ARP cache holds the next hop, [send_datagram] pushes one
    frame and does nothing else: the frame is an IPv4 frame (so not an ARP
    frame) from the local hardware address to the cached one, carrying the
    serialised datagram; both tables and the clock are as before. *)
Theorem send_datagram_cache_hit s dgram next_hop t mac :
  arp_table_ s !! next_hop = Some (t, mac) →
  frame_queue_ (send_datagram s dgram next_hop) =
    frame_queue_ s
    ++ [ {| header := {| dst := mac; src := ethernet_address_ s; type := TYPE_IPv4 |};
            payload := serialize_dgram dgram |} ]
  ∧ TYPE_IPv4 ≠ TYPE_ARP
  ∧ arp_table_ (send_datagram s dgram next_hop) = arp_table_ s
  ∧ queue_table_ (send_datagram s dgram next_hop) = queue_table_ s
  ∧ curr_time_ (send_datagram s dgram next_hop) = curr_time_ s.
Proof.
  intros Hhit. unfold send_datagram. rewrite Hhit. cbn.
  repeat split. apply TYPE_IPv4_ne_ARP.
Qed.

Lemma recv_frame_arp_table s frame arpmsg :
  carries_arp s frame arpmsg →
  arp_table_ (recv_frame s frame).2 =
    <[sender_ip_address arpmsg := (curr_time_ s, sender_ethernet_address arpmsg)]>
      (arp_table_ s).
Proof.
  intros Harp. rewrite (recv_frame_arp _ _ _ Harp). cbn.
  case_bool_decide; by rewrite flush_waiting_eq.
Qed.

(** C7: a frame addressed to the interface (or broadcast) that carries a
    decodable ARP message makes [recv_frame] store the sender's hardware
    address under the sender's IP address, stamped with the current time,
    replacing any older entry; the opcode and the state of the waiting
    table play no part.  No datagram is returned. *)
Theorem recv_frame_learns_sender s frame arpmsg :
  carries_arp s frame arpmsg →
  (recv_frame s frame).1 = None
  ∧ arp_table_ (recv_frame s frame).2 =
      <[sender_ip_address arpmsg := (curr_time_ s, sender_ethernet_address arpmsg)]>
        (arp_table_ s).
Proof.
  intros Harp. split; [|by apply recv_frame_arp_table].
  by rewrite (recv_frame_arp _ _ _ Harp).
Qed.

(** C8: an ARP request addressed to the interface (or broadcast) is answered
    exactly when it asks for the local IP address.  Then the frames pushed
    are one ARP reply, sent to the requester's hardware address and naming
    the local hardware and IP address as sender, followed only by IPv4
    frames; otherwise only IPv4 frames are pushed.  The sender is learned
    in both cases. *)
Theorem recv_frame_arp_request s frame arpmsg :
  carries_arp s frame arpmsg →
  opcode arpmsg = OPCODE_REQUEST →
  ∃ flushed,
    Forall (λ f, type (header f) = TYPE_IPv4 ∧ type (header f) ≠ TYPE_ARP) flushed
    ∧ (target_ip_address arpmsg = ip_address_ s →
       frame_queue_ (recv_frame s frame).2 =
         frame_queue_ s
         ++ [ {| header := {| dst := sender_ethernet_address arpmsg;
                              src := ethernet_address_ s; type := TYPE_ARP |};
                 payload :=
                   serialize_arp
                     {| opcode := OPCODE_REPLY;
                        sender_ethernet_address := ethernet_address_ s;
                        sender_ip_address := ip_address_ s;
                        target_ethernet_address := sender_ethernet_address arpmsg;
                        target_ip_address := sender_ip_address arpmsg |} |} ]
         ++ flushed)
    ∧ (target_ip_address arpmsg ≠ ip_address_ s →
       frame_queue_ (recv_frame s frame).2 = frame_queue_ s ++ flushed)
    ∧ arp_table_ (recv_frame s frame).2 !! sender_ip_address arpmsg =
        Some (curr_time_ s, sender_ethernet_address arpmsg).
Proof.
  intros Harp Hop.
  rewrite (recv_frame_arp_table _ _ _ Harp), lookup_insert_eq.
  rewrite (recv_frame_arp _ _ _ Harp). cbn zeta. cbn [snd].
  assert (∀ mac (q : list InternetDatagram),
            Forall (λ f, type (header f) = TYPE_IPv4 ∧ type (header f) ≠ TYPE_ARP)
                   (ipv4_frame s mac <$> q)) as Hall.
  { intros mac q. apply Forall_fmap, Forall_forall. intros d _. cbn.
    split; [done | apply TYPE_IPv4_ne_ARP]. }
  destruct (decide (target_ip_address arpmsg = ip_address_ s)) as [Htg|Htg].
  - rewrite bool_decide_eq_true_2 by done. rewrite flush_waiting_eq. cbn.
    eexists. split; [apply Hall|]. split; [|done].
    intros _. rewrite <- app_assoc. reflexivity.
  - rewrite bool_decide_eq_false_2 by (by intros [_ ?]). rewrite flush_waiting_eq. cbn.
    eexists. split; [apply Hall|]. split; [done|]. split; [|done].
    intros _. reflexivity.
Qed.

(** C9: a frame for another hardware address, and a frame for this
    interface whose IPv4 or ARP payload does not decode, are dropped:
    [recv_frame] returns no datagram and the whole state (cache, waiting
    table, frame queue, clock) is as before. *)
Theorem recv_frame_discards s frame :
  ¬ addressed_to s frame
  ∨ (addressed_to s frame ∧ type (header frame) = TYPE_IPv4
     ∧ parse_dgram (payload frame) = None)
  ∨ (addressed_to s frame ∧ type (header frame) = TYPE_ARP
     ∧ parse_arp (payload frame) = None) →
  recv_frame s frame = (None, s).
Proof.
  unfold addressed_to, recv_frame. intros Hcase.
  destruct (decide (dst (header frame) = ethernet_address_ s)) as [Hl|Hl];
    destruct (decide (dst (header frame) = ETHERNET_BROADCAST)) as [Hb|Hb];
    rewrite ?(bool_decide_eq_true_2 _ Hl), ?(bool_decide_eq_false_2 _ Hl),
            ?(bool_decide_eq_true_2 _ Hb), ?(bool_decide_eq_false_2 _ Hb); cbn;
    try (destruct Hcase as [Hn | [(_ & Hty & Hp) | (_ & Hty & Hp)]];
         [ exfalso; apply Hn; auto
         | by rewrite (bool_decide_eq_true_2 _ Hty), Hp
         | rewrite bool_decide_eq_false_2
             by (rewrite Hty; intros Heq; by apply TYPE_IPv4_ne_ARP);
           by rewrite (bool_decide_eq_true_2 _ Hty), Hp ]).
  done.
Qed.

(** C10: for an IPv4 frame addressed to the interface (or broadcast),
    [recv_frame] changes nothing in the state and returns what the datagram
    parser yields: the datagram, or nothing when parsing fails. *)
Theorem recv_frame_ipv4 s frame :
  addressed_to s frame →
  type (header frame) = TYPE_IPv4 →
  recv_frame s frame = (parse_dgram (payload frame), s).
Proof.
  intros Hdst Hty. unfold recv_frame.
  assert (bool_decide (dst (header frame) = ethernet_address_ s)
          || bool_decide (dst (header frame) = ETHERNET_BROADCAST) = true) as ->.
  { destruct Hdst as [Hd|Hd]; rewrite (bool_decide_eq_true_2 _ Hd);
      [done | apply orb_true_r]. }
  rewrite (bool_decide_eq_true_2 _ Hty).
  by destruct (parse_dgram (payload frame)).
Qed.

(** What a received ARP message does when it is not a request for the
    local address: the sender is learned and the sender's queue flushed. *)
Lemma recv_frame_arp_flush s frame arpmsg :
  carries_arp s frame arpmsg →
  ¬ request_for_us s arpmsg →
  (recv_frame s frame).2 =
    flush_waiting arpmsg
      (set_arp_table
         (<[sender_ip_address arpmsg :=
              (curr_time_ s, sender_ethernet_address arpmsg)]> (arp_table_ s)) s).
Proof.
  intros Harp Hnot. rewrite (recv_frame_arp _ _ _ Harp). cbn.
  by rewrite (bool_decide_eq_false_2 _ Hnot).
Qed.

(** C1, as the code has it: let an entry be waiting for [next_hop], possibly
    extended by further calls of [send_datagram] while the address is
    unknown.  A decodable ARP message from [next_hop] that is not a request
    for the local address makes [recv_frame] push one IPv4 frame per waiting
    datagram, addressed to the sender's hardware address, oldest first; the
    entry is not removed: when [recv_frame] returns it is in the table with
    its time stamp and an empty queue. *)
Theorem recv_frame_flushes_waiting s next_hop t q dgrams frame arpmsg :
  queue_table_ s !! next_hop = Some (t, q) →
  dgrams = [] ∨ arp_table_ s !! next_hop = None →
  carries_arp s frame arpmsg →
  sender_ip_address arpmsg = next_hop →
  ¬ request_for_us s arpmsg →
  frame_queue_ (recv_frame (send_all s dgrams next_hop) frame).2 =
    frame_queue_ s
    ++ ((λ dgram,
           {| header := {| dst := sender_ethernet_address arpmsg;
                           src := ethernet_address_ s; type := TYPE_IPv4 |};
              payload := serialize_dgram dgram |}) <$> (q ++ dgrams))
  ∧ queue_table_ (recv_frame (send_all s dgrams next_hop) frame).2 =
      <[next_hop := (t, [])]> (queue_table_ s).
Proof.
  intros Hq Hsent Harp <- Hnot.
  assert (send_all s dgrams (sender_ip_address arpmsg) =
          set_queue_table
            (<[sender_ip_address arpmsg := (t, q ++ dgrams)]> (queue_table_ s)) s) as ->.
  { destruct Hsent as [->|Hmiss]; [|by apply send_all_waiting].
    cbn. by rewrite app_nil_r, insert_id, set_queue_table_id. }
  rewrite (recv_frame_arp_flush _ _ arpmsg); [| exact Harp | exact Hnot].
  rewrite flush_waiting_eq. unfold waiting_entry. cbn.
  rewrite lookup_insert_eq. cbn. by rewrite insert_insert_eq.
Qed.

(** Two sends, then the reply.  With neither a cached address nor a waiting
    entry for [next_hop], two calls of [send_datagram] push a single frame,
    the broadcast ARP request; the second call only appends to the queue the
    first one created.  When an ARP reply from [next_hop] arrives, both
    datagrams follow as IPv4 frames to the replier's hardware address. *)
Theorem send_twice_single_request s dgram1 dgram2 next_hop frame arpmsg :
  arp_table_ s !! next_hop = None →
  queue_table_ s !! next_hop = None →
  frame_queue_ (send_datagram s dgram1 next_hop) =
    frame_queue_ s
    ++ [ {| header := {| dst := ETHERNET_BROADCAST; src := ethernet_address_ s;
                            type := TYPE_ARP |};
            payload :=
              serialize_arp
                {| opcode := OPCODE_REQUEST;
                   sender_ethernet_address := ethernet_address_ s;
                   sender_ip_address := ip_address_ s;
                   target_ethernet_address := ETHERNET_ZERO;
                   target_ip_address := next_hop |} |} ]
  ∧ frame_queue_ (send_datagram (send_datagram s dgram1 next_hop) dgram2 next_hop) =
      frame_queue_ (send_datagram s dgram1 next_hop)
  ∧ queue_table_ (send_datagram (send_datagram s dgram1 next_hop) dgram2 next_hop) =
      <[next_hop := (curr_time_ s, [dgram1; dgram2])]> (queue_table_ s)
  ∧ (carries_arp s frame arpmsg →
     opcode arpmsg = OPCODE_REPLY →
     sender_ip_address arpmsg = next_hop →
     frame_queue_
       (recv_frame (send_datagram (send_datagram s dgram1 next_hop) dgram2 next_hop)
          frame).2 =
       frame_queue_ s
       ++ [ {| header := {| dst := ETHERNET_BROADCAST; src := ethernet_address_ s;
                               type := TYPE_ARP |};
               payload :=
                 serialize_arp
                   {| opcode := OPCODE_REQUEST;
                      sender_ethernet_address := ethernet_address_ s;
                      sender_ip_address := ip_address_ s;
                      target_ethernet_address := ETHERNET_ZERO;
                      target_ip_address := next_hop |} |};
            {| header := {| dst := sender_ethernet_address arpmsg; src := ethernet_address_ s;
                               type := TYPE_IPv4 |};
               payload := serialize_dgram dgram1 |};
            {| header := {| dst := sender_ethernet_address arpmsg; src := ethernet_address_ s;
                               type := TYPE_IPv4 |};
               payload := serialize_dgram dgram2 |} ]).
Proof.
  intros Harp Hq.
  set (s1 := send_datagram s dgram1 next_hop).
  set (s2 := send_datagram s1 dgram2 next_hop).
  assert (s1 = push_frame (arp_request_frame s next_hop)
                 (set_queue_table
                    (<[next_hop := (curr_time_ s, [dgram1])]> (queue_table_ s)) s)) as Hs1.
  { subst s1. unfold send_datagram. by rewrite Harp, Hq. }
  assert (s2 = set_queue_table
                 (<[next_hop := (curr_time_ s, [dgram1; dgram2])]> (queue_table_ s)) s1)
    as Hs2.
  { subst s2. unfold send_datagram at 1. rewrite Hs1. cbn.
    rewrite Harp, lookup_insert_eq. cbn. by rewrite insert_insert_eq. }
  split; [by rewrite Hs1|]. split; [by rewrite Hs2|]. split; [by rewrite Hs2|].
  intros Hmsg Hop <-.
  assert (¬ request_for_us s2 arpmsg) as Hnot.
  { intros [Hreq _]. rewrite Hop in Hreq. by apply OPCODE_REQUEST_ne_REPLY. }
  rewrite (recv_frame_arp_flush _ _ arpmsg); [| by rewrite Hs2, Hs1 | exact Hnot].
  rewrite flush_waiting_eq. unfold waiting_entry. rewrite Hs2, Hs1. cbn.
  rewrite lookup_insert_eq. cbn. by rewrite <- app_assoc.
Qed.
End Operations.

(** ** The clock and the expiry sweeps *)

Section Expiry.
Context `{Codec}.
Implicit Types (s : NetworkInterface) (frame : EthernetFrame) (arpmsg : ARPMessage).

Lemma wrap_size_t_small z : 0 ≤ z < 2 ^ SIZE_WIDTH → wrap_size_t z = z.
Proof. intros Hz. unfold wrap_size_t. by apply Z.mod_small. Qed.

Lemma tick_arp_lookup s ms ip :
  arp_table_ (tick s ms) !! ip =
    match arp_table_ s !! ip with
    | Some (t, mac) =>
        if bool_decide (wrap_size_t (wrap_size_t (curr_time_ s + ms) - t) > 30000)
        then None else Some (t, mac)
    | None => None
    end.
Proof. unfold tick; cbn. apply erase_expired_item_lookup. Qed.

Lemma tick_queue_lookup s ms ip :
  queue_table_ (tick s ms) !! ip =
    match queue_table_ s !! ip with
    | Some (t, q) =>
        if bool_decide (wrap_size_t (wrap_size_t (curr_time_ s + ms) - t) > 5000)
        then None else Some (t, q)
    | None => None
    end.
Proof. unfold tick; cbn. apply erase_expired_item_lookup. Qed.

Lemma tick_curr_time s ms : curr_time_ (tick s ms) = wrap_size_t (curr_time_ s + ms).
Proof. done. Qed.

Lemma tick_frame_queue s ms : frame_queue_ (tick s ms) = frame_queue_ s.
Proof. done. Qed.

(** The age [tick] computes for a stamp in the past, the clock not
    overflowing. *)
Lemma age_no_overflow now ms t :
  0 ≤ t ≤ now → 0 ≤ ms → now + ms < 2 ^ SIZE_WIDTH →
  wrap_size_t (wrap_size_t (now + ms) - t) = now + ms - t.
Proof.
  intros Ht Hms Hnow. rewrite (wrap_size_t_small (now + ms)) by lia.
  apply wrap_size_t_small. lia.
Qed.

(** [tick] and forgetting a waiting entry commute. *)
Lemma tick_forget s ms ip :
  tick (set_queue_table (delete ip (queue_table_ s)) s) ms =
    set_queue_table (delete ip (queue_table_ (tick s ms))) (tick s ms).
Proof.
  unfold tick, set_queue_table, set_arp_table, set_curr_time; cbn.
  by rewrite erase_expired_item_delete.
Qed.

Lemma ticks_forget s ms ip :
  ticks (set_queue_table (delete ip (queue_table_ s)) s) ms =
    set_queue_table (delete ip (queue_table_ (ticks s ms))) (ticks s ms).
Proof.
  revert s. induction ms as [|m ms IH]; intros s; [done|].
  cbn [ticks foldl]. rewrite tick_forget. apply IH.
Qed.

Lemma ticks_snoc s ms m : ticks s (ms ++ [m]) = tick (ticks s ms) m.
Proof. unfold ticks. by rewrite foldl_app. Qed.

Lemma total_snoc ms m : total (ms ++ [m]) = total ms + m.
Proof. unfold total. induction ms as [|a ms IH]; cbn; lia. Qed.

Lemma total_nonneg ms : Forall (λ m, 0 ≤ m) ms → 0 ≤ total ms.
Proof. unfold total. induction 1; cbn; lia. Qed.

Lemma ticks_frame_queue s ms : frame_queue_ (ticks s ms) = frame_queue_ s.
Proof.
  induction ms as [|m ms IH] using rev_ind; [done|].
  by rewrite ticks_snoc, tick_frame_queue.
Qed.

Lemma ticks_identity s ms :
  ethernet_address_ (ticks s ms) = ethernet_address_ s
  ∧ ip_address_ (ticks s ms) = ip_address_ s.
Proof.
  induction ms as [|m ms IH] using rev_ind; [done|].
  by rewrite ticks_snoc.
Qed.

Lemma ticks_curr_time s ms :
  0 ≤ curr_time_ s → Forall (λ m, 0 ≤ m) ms →
  curr_time_ s + total ms < 2 ^ SIZE_WIDTH →
  curr_time_ (ticks s ms) = curr_time_ s + total ms.
Proof.
  intros Hnow. induction ms as [|m ms IH] using rev_ind; intros Hms Hsum.
  - unfold total; cbn. lia.
  - apply Forall_app in Hms as [Hms Hm]. apply Forall_inv in Hm. cbn beta in Hm.
    pose proof (total_nonneg _ Hms) as Hpos. rewrite total_snoc in Hsum |- *.
    rewrite ticks_snoc, tick_curr_time, IH; [| done | lia].
    rewrite wrap_size_t_small; lia.
Qed.

(** A sweep never changes an entry it keeps. *)
Lemma ticks_queue_lookup s ms ip :
  queue_table_ (ticks s ms) !! ip = queue_table_ s !! ip
  ∨ queue_table_ (ticks s ms) !! ip = None.
Proof.
  induction ms as [|m ms IH] using rev_ind; [by left|].
  rewrite ticks_snoc, tick_queue_lookup.
  destruct IH as [-> | ->]; [|by right].
  destruct (queue_table_ s !! ip) as [[t q]|]; [|by left].
  case_bool_decide; [by right | by left].
Qed.
End Expiry.

(** ** Time stamps in reachable states *)

Section Stamps.
Context `{Codec}.
Implicit Types (s : NetworkInterface) (frame : EthernetFrame) (arpmsg : ARPMessage).

Lemma stamps_ok_ext s s' :
  arp_table_ s' = arp_table_ s → queue_table_ s' = queue_table_ s →
  curr_time_ s' = curr_time_ s → stamps_ok s → stamps_ok s'.
Proof.
  intros Ha Hq Hc [Hclock Harp Hqueue Hord].
  split; rewrite ?Ha, ?Hq, ?Hc; done.
Qed.

Lemma stamps_ok_new mac ip : stamps_ok (new_interface mac ip).
Proof.
  split; cbn.
  - unfold SIZE_WIDTH. lia.
  - intros ? ? ?. by rewrite lookup_empty.
  - intros ? ? ?. by rewrite lookup_empty.
  - intros ? ? ? ? ?. by rewrite lookup_empty.
Qed.

(** Writing a waiting entry whose stamp is in the past and not younger than
    the cached address of the same IP. *)
Lemma stamps_ok_set_waiting s ip t q :
  stamps_ok s →
  0 ≤ t ≤ curr_time_ s →
  (∀ ta mac, arp_table_ s !! ip = Some (ta, mac) → t ≤ ta) →
  stamps_ok (set_queue_table (<[ip := (t, q)]> (queue_table_ s)) s).
Proof.
  intros [Hclock Harp Hqueue Hord] Ht Hle. split; cbn; [done | done | |].
  - intros ip' t' q'. rewrite lookup_insert. case_decide as Heq.
    + intros [= <- <-]. done.
    + apply Hqueue.
  - intros ip' ta mac t' q' Ha. rewrite lookup_insert. case_decide as Heq.
    + intros [= <- <-]. subst ip'. by eapply Hle.
    + by eapply Hord.
Qed.

(** Learning an address at the current time. *)
Lemma stamps_ok_learn s ip mac :
  stamps_ok s →
  stamps_ok (set_arp_table (<[ip := (curr_time_ s, mac)]> (arp_table_ s)) s).
Proof.
  intros [Hclock Harp Hqueue Hord]. split; cbn; [done | | done |].
  - intros ip' t' mac'. rewrite lookup_insert. case_decide as Heq.
    + intros [= <- <-]. lia.
    + apply Harp.
  - intros ip' ta mac' t' q'. rewrite lookup_insert. case_decide as Heq.
    + intros [= <- <-] Hq. subst ip'. by eapply Hqueue.
    + by eapply Hord.
Qed.

Lemma waiting_entry_stamp s key :
  stamps_ok s →
  0 ≤ (waiting_entry s key).1 ≤ curr_time_ s
  ∧ ∀ ta mac, arp_table_ s !! key = Some (ta, mac) → (waiting_entry s key).1 ≤ ta.
Proof.
  intros [Hclock Harp Hqueue Hord]. unfold waiting_entry.
  destruct (queue_table_ s !! key) as [[t q]|] eqn:Hq; cbn.
  - split; [by eapply Hqueue|]. intros ta mac Ha. by eapply Hord.
  - split; [lia|]. intros ta mac Ha. by apply Harp in Ha as [[? ?] ?].
Qed.

Lemma stamps_ok_send s dgram next_hop :
  stamps_ok s → stamps_ok (send_datagram s dgram next_hop).
Proof.
  intros Hok. unfold send_datagram.
  destruct (arp_table_ s !! next_hop) as [[ta mac]|] eqn:Ha.
  - by apply (stamps_ok_ext s).
  - destruct (queue_table_ s !! next_hop) as [[t q]|] eqn:Hq.
    + apply stamps_ok_set_waiting; [done | by eapply (queue_stamp s) |].
      intros ta mac. by rewrite Ha.
    + eapply (stamps_ok_ext (set_queue_table _ s)); [done..|].
      apply stamps_ok_set_waiting; [done | |].
      * pose proof (clock_range s Hok). lia.
      * intros ta mac. by rewrite Ha.
Qed.

Lemma stamps_ok_flush_waiting s arpmsg :
  stamps_ok s → stamps_ok (flush_waiting arpmsg s).
Proof.
  intros Hok. rewrite flush_waiting_eq.
  destruct (waiting_entry_stamp s (sender_ip_address arpmsg) Hok) as [Hrange Hle].
  eapply (stamps_ok_ext (set_queue_table _ s)); [done..|].
  by apply stamps_ok_set_waiting.
Qed.

(** [recv_frame] either leaves the state alone or has decoded an ARP
    message. *)
Lemma recv_frame_cases s frame :
  (recv_frame s frame).2 = s ∨ ∃ arpmsg, carries_arp s frame arpmsg.
Proof.
  unfold carries_arp, addressed_to, recv_frame.
  destruct (decide (dst (header frame) = ethernet_address_ s)) as [Hl|Hl];
    destruct (decide (dst (header frame) = ETHERNET_BROADCAST)) as [Hb|Hb];
    rewrite ?(bool_decide_eq_true_2 _ Hl), ?(bool_decide_eq_false_2 _ Hl),
            ?(bool_decide_eq_true_2 _ Hb), ?(bool_decide_eq_false_2 _ Hb); cbn;
    try (by left);
    (case_bool_decide as Hv4; [destruct (parse_dgram (payload frame)); by left|];
     case_bool_decide as Harp; [|by left];
     destruct (parse_arp (payload frame)) as [arpmsg|]; [|by left];
     right; exists arpmsg; auto).
Qed.

Lemma stamps_ok_recv s frame :
  stamps_ok s → stamps_ok (recv_frame s frame).2.
Proof.
  intros Hok. destruct (recv_frame_cases s frame) as [-> | [arpmsg Harp]]; [done|].
  rewrite (recv_frame_arp _ _ _ Harp). cbn.
  case_bool_decide; apply stamps_ok_flush_waiting.
  - eapply (stamps_ok_ext (set_arp_table _ s)); [done..|]. by apply stamps_ok_learn.
  - by apply stamps_ok_learn.
Qed.

Lemma stamps_ok_tick s ms :
  stamps_ok s → 0 ≤ ms → curr_time_ s + ms < 2 ^ SIZE_WIDTH →
  stamps_ok (tick s ms).
Proof.
  intros [Hclock Harp Hqueue Hord] Hms Hsum.
  assert (curr_time_ (tick s ms) = curr_time_ s + ms) as Hnow.
  { rewrite tick_curr_time. apply wrap_size_t_small. lia. }
  assert (∀ ip t mac, arp_table_ (tick s ms) !! ip = Some (t, mac) →
            arp_table_ s !! ip = Some (t, mac) ∧ curr_time_ s + ms - t ≤ 30000) as Ha.
  { intros ip t mac. rewrite tick_arp_lookup.
    destruct (arp_table_ s !! ip) as [[t0 mac0]|] eqn:Hl; [|done].
    destruct (Harp _ _ _ Hl) as [Hr _].
    rewrite age_no_overflow by done.
    case_bool_decide; [done|]. intros [= <- <-]. split; [done|lia]. }
  assert (∀ ip t q, queue_table_ (tick s ms) !! ip = Some (t, q) →
            queue_table_ s !! ip = Some (t, q)) as Hq.
  { intros ip t q. rewrite tick_queue_lookup.
    destruct (queue_table_ s !! ip) as [[t0 q0]|]; [|done].
    by case_bool_decide. }
  split; rewrite ?Hnow.
  - lia.
  - intros ip t mac [Hl Hage]%Ha. destruct (Harp _ _ _ Hl) as [Hr _]. lia.
  - intros ip t q Hl%Hq. specialize (Hqueue _ _ _ Hl). lia.
  - intros ip t mac t' q [Hl _]%Ha Hl'%Hq. by eapply Hord.
Qed.

Lemma stamps_ok_maybe_send s : stamps_ok s → stamps_ok (maybe_send s).2.
Proof.
  intros Hok. unfold maybe_send. destruct (frame_queue_ s) eqn:Hf; [done|].
  by apply (stamps_ok_ext s).
Qed.

Lemma reachable_stamps_ok s : reachable s → stamps_ok s.
Proof.
  induction 1;
    auto using stamps_ok_new, stamps_ok_send, stamps_ok_recv, stamps_ok_tick,
               stamps_ok_maybe_send.
Qed.

Lemma stamps_ok_ticks s ms :
  stamps_ok s → Forall (λ m, 0 ≤ m) ms →
  curr_time_ s + total ms < 2 ^ SIZE_WIDTH →
  stamps_ok (ticks s ms).
Proof.
  intros Hok. induction ms as [|m ms IH] using rev_ind; intros Hms Hsum; [done|].
  apply Forall_app in Hms as [Hms Hm]. apply Forall_inv in Hm. cbn beta in Hm.
  pose proof (total_nonneg _ Hms) as Hpos. rewrite total_snoc in Hsum.
  pose proof (clock_range s Hok) as Hclock.
  rewrite ticks_snoc. apply stamps_ok_tick; [apply IH; [done | lia] | done |].
  rewrite ticks_curr_time; [lia | lia | done | lia].
Qed.
End Stamps.

(** ** Empty queues, cache expiry, dropped datagrams *)

Section Lifetimes.
Context `{Codec}.
Implicit Types (s : NetworkInterface) (frame : EthernetFrame) (arpmsg : ARPMessage).

(** C2, as the code has it: [send_datagram], [tick], [maybe_send] and a
    [recv_frame] that decodes no ARP message keep the waiting table free of
    empty queues; a [recv_frame] that decodes an ARP message returns with an
    entry with an empty queue in the table. *)
Theorem empty_queue_only_after_arp s :
  no_empty_queue s →
  (∀ dgram next_hop, no_empty_queue (send_datagram s dgram next_hop))
  ∧ (∀ ms, no_empty_queue (tick s ms))
  ∧ no_empty_queue (maybe_send s).2
  ∧ (∀ frame, (∀ arpmsg, ¬ carries_arp s frame arpmsg) →
       no_empty_queue (recv_frame s frame).2)
  ∧ (∀ frame arpmsg, carries_arp s frame arpmsg →
       (∃ ip t, queue_table_ (recv_frame s frame).2 !! ip = Some (t, []))
       ∧ ¬ no_empty_queue (recv_frame s frame).2).
Proof.
  unfold no_empty_queue. intros Hs. split; [|split; [|split; [|split]]].
  - intros dgram next_hop. unfold send_datagram.
    destruct (arp_table_ s !! next_hop) as [[ta mac]|]; [done|].
    destruct (queue_table_ s !! next_hop) as [[t q]|]; cbn.
    + apply map_Forall_insert_2; [|done]. cbn. by destruct q.
    + by apply map_Forall_insert_2.
  - intros ms. apply map_Forall_lookup. intros ip [t q].
    rewrite tick_queue_lookup.
    destruct (queue_table_ s !! ip) as [[t0 q0]|] eqn:Hl; [|done].
    case_bool_decide; [done|]. intros [= <- <-].
    by apply (map_Forall_lookup_1 _ _ _ _ Hs Hl).
  - unfold maybe_send. by destruct (frame_queue_ s).
  - intros frame Hnone.
    destruct (recv_frame_cases s frame) as [-> | [arpmsg Harp]]; [done|].
    by destruct (Hnone arpmsg).
  - intros frame arpmsg Harp.
    assert (∃ ip t, queue_table_ (recv_frame s frame).2 !! ip = Some (t, []))
      as (ip & t & Hl).
    { rewrite (recv_frame_arp _ _ _ Harp). cbn.
      case_bool_decide; rewrite flush_waiting_eq; cbn;
        eexists _, _; apply lookup_insert_eq. }
    split; [by exists ip, t|].
    intros Hall. by apply (map_Forall_lookup_1 _ _ _ _ Hall Hl).
Qed.

(** Where a cache entry stamped [t] stands after some calls of [tick]. *)
Lemma ticks_cache_entry s ip t mac ms :
  stamps_ok s →
  arp_table_ s !! ip = Some (t, mac) →
  Forall (λ m, 0 ≤ m) ms →
  curr_time_ s + total ms < 2 ^ SIZE_WIDTH →
  (curr_time_ s + total ms ≤ t + 30000 →
     arp_table_ (ticks s ms) !! ip = Some (t, mac))
  ∧ (t + 30000 < curr_time_ s + total ms →
     arp_table_ (ticks s ms) !! ip = None ∧ queue_table_ (ticks s ms) !! ip = None).
Proof.
  intros Hok Hl. induction ms as [|m ms IH] using rev_ind; intros Hms Hsum.
  - unfold total; cbn. split; [done|].
    destruct (arp_stamp s Hok _ _ _ Hl). lia.
  - apply Forall_app in Hms as [Hms Hm]. apply Forall_inv in Hm. cbn beta in Hm.
    pose proof (total_nonneg _ Hms) as Hpos. rewrite total_snoc in Hsum |- *.
    pose proof (clock_range s Hok) as Hclock.
    destruct IH as [IHkeep IHgone]; [done | lia |].
    pose proof (stamps_ok_ticks s ms Hok Hms ltac:(lia)) as Hok'.
    pose proof (ticks_curr_time s ms ltac:(lia) Hms ltac:(lia)) as Hnow.
    rewrite ticks_snoc, tick_arp_lookup, tick_queue_lookup.
    destruct (decide (curr_time_ s + total ms ≤ t + 30000)) as [Hyoung|Hold].
    + rewrite (IHkeep Hyoung).
      destruct (arp_stamp _ Hok' _ _ _ (IHkeep Hyoung)) as [Hr _].
      rewrite age_no_overflow by (rewrite ?Hnow; done || lia). rewrite Hnow.
      split; intros Hfinal.
      * rewrite bool_decide_eq_false_2; [done | lia].
      * rewrite bool_decide_eq_true_2 by lia. split; [done|].
        destruct (queue_table_ (ticks s ms) !! ip) as [[t' q]|] eqn:Hq; [|done].
        pose proof (queue_before_arp _ Hok' _ _ _ _ _ (IHkeep Hyoung) Hq).
        pose proof (queue_stamp _ Hok' _ _ _ Hq).
        rewrite age_no_overflow by (done || lia).
        rewrite bool_decide_eq_true_2; [done | lia].
    + destruct IHgone as [-> ->]; [lia|]. split; [lia | done].
Qed.

(** C5: in a reachable state let the cache hold for [ip] an entry learned
    at time [t], and let calls of [tick] advance the clock, without
    overflow.  As long as the clock is at most [t + 30000] (so at
    [t + 29999]) the entry is there and [send_datagram] to [ip] pushes the
    IPv4 frame to the cached address.  Once the clock has passed
    [t + 30000] (so at [t + 30001]) the entry is gone, and [send_datagram]
    to [ip] pushes a new ARP request (broadcast, opcode REQUEST, the local
    addresses as sender, [ip] as target IP) and keeps the datagram waiting
    in an entry stamped with the current time. *)
Theorem cache_entry_lifetime s ip t mac ms dgram :
  reachable s →
  arp_table_ s !! ip = Some (t, mac) →
  Forall (λ m, 0 ≤ m) ms →
  curr_time_ s + total ms < 2 ^ SIZE_WIDTH →
  curr_time_ (ticks s ms) = curr_time_ s + total ms
  ∧ (curr_time_ s + total ms ≤ t + 30000 →
       arp_table_ (ticks s ms) !! ip = Some (t, mac)
       ∧ frame_queue_ (send_datagram (ticks s ms) dgram ip) =
           frame_queue_ s
           ++ [ {| header := {| dst := mac; src := ethernet_address_ s;
                                   type := TYPE_IPv4 |};
                   payload := serialize_dgram dgram |} ])
  ∧ (t + 30000 < curr_time_ s + total ms →
       arp_table_ (ticks s ms) !! ip = None
       ∧ frame_queue_ (send_datagram (ticks s ms) dgram ip) =
           frame_queue_ s
           ++ [ {| header := {| dst := ETHERNET_BROADCAST; src := ethernet_address_ s;
                                   type := TYPE_ARP |};
                   payload :=
                     serialize_arp
                       {| opcode := OPCODE_REQUEST;
                          sender_ethernet_address := ethernet_address_ s;
                          sender_ip_address := ip_address_ s;
                          target_ethernet_address := ETHERNET_ZERO;
                          target_ip_address := ip |} |} ]
       ∧ queue_table_ (send_datagram (ticks s ms) dgram ip) !! ip =
           Some (curr_time_ s + total ms, [dgram])).
Proof.
  intros Hreach Hl Hms Hsum.
  pose proof (reachable_stamps_ok s Hreach) as Hok.
  pose proof (clock_range s Hok) as Hclock.
  destruct (ticks_cache_entry s ip t mac ms Hok Hl Hms Hsum) as [Hkeep Hgone].
  pose proof (ticks_curr_time s ms ltac:(lia) Hms Hsum) as Hnow.
  destruct (ticks_identity s ms) as [Hmac Hip].
  split; [done|]. split.
  - intros Hyoung. split; [by apply Hkeep|].
    unfold send_datagram. rewrite (Hkeep Hyoung). cbn.
    unfold ipv4_frame. by rewrite ticks_frame_queue, Hmac.
  - intros Hold. destruct (Hgone Hold) as [Ha Hq]. split; [done|].
    unfold send_datagram. rewrite Ha, Hq. cbn.
    unfold arp_request_frame, arp_request.
    by rewrite ticks_frame_queue, Hmac, Hip, lookup_insert_eq, Hnow.
Qed.

(** C6: let an entry whose ARP request was sent at time [t] wait for [ip],
    and let one or more calls of [tick] advance the clock past [t + 5000]
    (so to [t + 5001]), without overflow.  Then the entry is gone and no
    frame was pushed; the state is the one the same calls of [tick] reach
    when the entry, with its datagrams, is taken out beforehand, so nothing
    the interface does later depends on them.  [ticks] is a total function
    into states: there is no error to report. *)
Theorem waiting_entry_dropped s ip t q ms :
  queue_table_ s !! ip = Some (t, q) →
  0 ≤ t ≤ curr_time_ s →
  Forall (λ m, 0 ≤ m) ms →
  ms ≠ [] →
  curr_time_ s + total ms < 2 ^ SIZE_WIDTH →
  t + 5000 < curr_time_ s + total ms →
  queue_table_ (ticks s ms) !! ip = None
  ∧ frame_queue_ (ticks s ms) = frame_queue_ s
  ∧ ticks s ms = ticks (set_queue_table (delete ip (queue_table_ s)) s) ms.
Proof.
  intros Hl Ht Hms Hne Hsum Hold.
  assert (queue_table_ (ticks s ms) !! ip = None) as Hgone.
  { destruct ms as [|m ms _] using rev_ind; [done|].
    apply Forall_app in Hms as [Hms Hm]. apply Forall_inv in Hm. cbn beta in Hm.
    pose proof (total_nonneg _ Hms) as Hpos. rewrite total_snoc in Hsum, Hold.
    pose proof (ticks_curr_time s ms ltac:(lia) Hms ltac:(lia)) as Hnow.
    rewrite ticks_snoc, tick_queue_lookup.
    destruct (ticks_queue_lookup s ms ip) as [-> | ->]; [|done].
    rewrite Hl, age_no_overflow by (rewrite ?Hnow; done || lia). rewrite Hnow.
    rewrite bool_decide_eq_true_2; [done | lia]. }
  split; [done|]. split; [apply ticks_frame_queue|].
  by rewrite ticks_forget, delete_id, set_queue_table_id.
Qed.
(** The request time of a waiting entry is never refreshed: only a sweep
    takes the entry away, the other operations change at most its queue. *)
Lemma waiting_stamp_kept s ip t q :
  queue_table_ s !! ip = Some (t, q) →
  (∀ dgram next_hop,
     ∃ q', queue_table_ (send_datagram s dgram next_hop) !! ip = Some (t, q'))
  ∧ (∀ frame, ∃ q', queue_table_ (recv_frame s frame).2 !! ip = Some (t, q'))
  ∧ queue_table_ (maybe_send s).2 !! ip = Some (t, q).
Proof.
  intros Hl. repeat split.
  - intros dgram next_hop. unfold send_datagram.
    destruct (arp_table_ s !! next_hop) as [[ta mac]|]; [by exists q|].
    destruct (queue_table_ s !! next_hop) as [[t' q']|] eqn:Hn; cbn.
    + destruct (decide (next_hop = ip)) as [->|Hne].
      * rewrite lookup_insert_eq. rewrite Hl in Hn. injection Hn as <- <-. eauto.
      * rewrite lookup_insert_ne by done. eauto.
    + rewrite lookup_insert_ne by (intros ->; congruence). eauto.
  - intros frame.
    destruct (recv_frame_cases s frame) as [-> | [arpmsg Harp]]; [eauto|].
    rewrite (recv_frame_arp _ _ _ Harp). cbn.
    assert (∀ m s', queue_table_ s' = queue_table_ s →
              ∃ q', queue_table_ (flush_waiting m s') !! ip = Some (t, q')) as Hflush.
    { intros m s' Hs'. rewrite flush_waiting_eq. unfold waiting_entry. cbn. rewrite Hs'.
      destruct (decide (sender_ip_address m = ip)) as [->|Hne].
      - rewrite lookup_insert_eq, Hl. eauto.
      - rewrite lookup_insert_ne by done. eauto. }
    case_bool_decide; by apply Hflush.
  - unfold maybe_send. by destruct (frame_queue_ s).
Qed.
End Lifetimes.

(** ** The properties on two hosts *)

Section TwoHosts.
#[local] Existing Instances Demo.link Demo.codec.
Import Demo.

(** B's reply reaches the ARP branch of host A and decodes. *)
Lemma reply_from_b_carries s :
  ethernet_address_ s = mac_a →
  carries_arp s reply_from_b (arp_from_b OPCODE_REPLY ip_a).
Proof.
  intros Hmac. split; [left; by rewrite Hmac|]. split; [done|]. by vm_compute.
Defined.

(** So does B's request for A's address. *)
Lemma request_from_b_carries s :
  ethernet_address_ s = mac_a →
  carries_arp s request_from_b (arp_from_b OPCODE_REQUEST ip_a).
Proof.
  intros Hmac. split; [left; by rewrite Hmac|]. split; [done|]. by vm_compute.
Defined.

(** C1 does not hold as stated.  After B's reply the two waiting datagrams
    have been sent but the entry for B is still in the table; and after B's
    request for A's address no waiting datagram has been sent at all. *)
Lemma recv_frame_removes_entry_cex :
  queue_table_ a_waiting !! ip_b = Some (0, [dgram1; dgram2])
  ∧ (carries_arp a_waiting reply_from_b (arp_from_b OPCODE_REPLY ip_a)
     ∧ sender_ip_address (arp_from_b OPCODE_REPLY ip_a) = ip_b
     ∧ queue_table_ (recv_frame a_waiting reply_from_b).2 !! ip_b ≠ None)
  ∧ (carries_arp a_waiting request_from_b (arp_from_b OPCODE_REQUEST ip_a)
     ∧ sender_ip_address (arp_from_b OPCODE_REQUEST ip_a) = ip_b
     ∧ frame_queue_ (recv_frame a_waiting request_from_b).2 =
         frame_queue_ a_waiting
         ++ [arp_reply_frame a_waiting (arp_from_b OPCODE_REQUEST ip_a)]
     ∧ queue_table_ (recv_frame a_waiting request_from_b).2 !! ip_b =
         Some (0, [dgram1; dgram2])).
Proof.
  split; [by vm_compute|]. split.
  - split; [by apply reply_from_b_carries|]. split; [done|].
    assert (queue_table_ (recv_frame a_waiting reply_from_b).2 !! ip_b = Some (0, []))
      as -> by (by vm_compute).
    done.
  - split; [by apply request_from_b_carries|]. repeat split; by vm_compute.
Qed.

(** A sends two datagrams to B, then B's reply arrives: both go out in
    order and the entry for B stays, with an empty queue. *)
Lemma recv_frame_flushes_waiting_witness :
  frame_queue_
    (recv_frame (send_all (send_datagram host_a dgram1 ip_b) [dgram2] ip_b)
       reply_from_b).2 =
    frame_queue_ (send_datagram host_a dgram1 ip_b)
    ++ ((λ dgram,
           {| header := {| dst := mac_b; src := mac_a; type := TYPE_IPv4 |};
              payload := serialize_dgram dgram |}) <$> ([dgram1] ++ [dgram2]))
  ∧ queue_table_
      (recv_frame (send_all (send_datagram host_a dgram1 ip_b) [dgram2] ip_b)
         reply_from_b).2 =
      <[ip_b := (0, [])]> (queue_table_ (send_datagram host_a dgram1 ip_b)).
Proof.
  apply (recv_frame_flushes_waiting (send_datagram host_a dgram1 ip_b) ip_b 0
           [dgram1] [dgram2] reply_from_b (arp_from_b OPCODE_REPLY ip_a)).
  - by vm_compute.
  - right. by vm_compute.
  - by apply reply_from_b_carries.
  - reflexivity.
  - intros [Hop _]. discriminate Hop.
Defined.

(** C2 does not hold as stated: the state after a reply nobody asked for is
    reachable and its waiting table holds an entry with an empty queue. *)
Lemma reachable_empty_queue_cex :
  reachable a_told
  ∧ queue_table_ a_told !! ip_b = Some (0, [])
  ∧ ¬ no_empty_queue a_told.
Proof.
  assert (queue_table_ a_told !! ip_b = Some (0, [])) as Hl by (by vm_compute).
  split; [apply reachable_recv, reachable_new|]. split; [done|].
  intros Hall. by apply (map_Forall_lookup_1 _ _ _ _ Hall Hl).
Qed.

(** The only waiting entry of [a_waiting] holds two datagrams. *)
Lemma a_waiting_no_empty_queue : no_empty_queue a_waiting.
Proof.
  unfold no_empty_queue.
  assert (queue_table_ a_waiting = <[ip_b := (0, [dgram1; dgram2])]> ∅) as ->
    by (by vm_compute).
  apply map_Forall_insert_2; [done | apply map_Forall_empty].
Defined.

(** From [a_waiting]: sending and ticking leave no empty queue, B's reply
    does. *)
Lemma empty_queue_only_after_arp_witness :
  no_empty_queue a_waiting
  ∧ no_empty_queue (send_datagram a_waiting dgram1 ip_a)
  ∧ no_empty_queue (tick a_waiting 5001)
  ∧ (∃ ip t, queue_table_ (recv_frame a_waiting reply_from_b).2 !! ip = Some (t, []))
  ∧ ¬ no_empty_queue (recv_frame a_waiting reply_from_b).2.
Proof.
  pose proof (empty_queue_only_after_arp a_waiting a_waiting_no_empty_queue)
    as (Hsend & Htick & _ & _ & Harp).
  split; [apply a_waiting_no_empty_queue|]. split; [apply Hsend|].
  split; [apply Htick|].
  apply (Harp reply_from_b (arp_from_b OPCODE_REPLY ip_a)).
  by apply reply_from_b_carries.
Defined.

(** Once B's address is cached, a datagram for B goes out at once. *)
Lemma send_datagram_cache_hit_witness :
  arp_table_ a_resolved !! ip_b = Some (0, mac_b)
  ∧ frame_queue_ (send_datagram a_resolved dgram1 ip_b) =
      frame_queue_ a_resolved
      ++ [ {| header := {| dst := mac_b; src := mac_a; type := TYPE_IPv4 |};
              payload := serialize_dgram dgram1 |} ]
  ∧ queue_table_ (send_datagram a_resolved dgram1 ip_b) = queue_table_ a_resolved.
Proof.
  assert (arp_table_ a_resolved !! ip_b = Some (0, mac_b)) as Hhit by (by vm_compute).
  split; [exact Hhit|].
  destruct (send_datagram_cache_hit a_resolved dgram1 ip_b 0 mac_b Hhit)
    as (Hframes & _ & _ & Hqueue & _).
  split; [exact Hframes | exact Hqueue].
Defined.

(** C4 at the input where the code departs from it.  A fresh host A sends
    two datagrams to B: one ARP request goes out and both datagrams wait.
    Then B's ARP request for A's address arrives.  A now has B's hardware
    address in its cache and answers, but the flush loop reads the rewritten
    message: no IPv4 frame is pushed and both datagrams are still waiting
    for B.  The sweep at 5001 ms discards them without a frame. *)
Lemma send_twice_then_request_not_flushed :
  arp_table_ host_a !! ip_b = None
  ∧ queue_table_ host_a !! ip_b = None
  ∧ frame_queue_ (send_datagram (send_datagram host_a dgram1 ip_b) dgram2 ip_b) =
      [ {| header := {| dst := ETHERNET_BROADCAST; src := mac_a; type := TYPE_ARP |};
            payload :=
              serialize_arp
                {| opcode := OPCODE_REQUEST;
                   sender_ethernet_address := mac_a; sender_ip_address := ip_a;
                   target_ethernet_address := ETHERNET_ZERO;
                   target_ip_address := ip_b |} |} ]
  ∧ carries_arp (send_datagram (send_datagram host_a dgram1 ip_b) dgram2 ip_b)
      request_from_b
      {| opcode := OPCODE_REQUEST;
         sender_ethernet_address := mac_b; sender_ip_address := ip_b;
         target_ethernet_address := mac_a; target_ip_address := ip_a |}
  ∧ arp_table_
      (recv_frame (send_datagram (send_datagram host_a dgram1 ip_b) dgram2 ip_b)
         request_from_b).2 !! ip_b = Some (0, mac_b)
  ∧ frame_queue_
      (recv_frame (send_datagram (send_datagram host_a dgram1 ip_b) dgram2 ip_b)
         request_from_b).2 =
      [ {| header := {| dst := ETHERNET_BROADCAST; src := mac_a; type := TYPE_ARP |};
            payload :=
              serialize_arp
                {| opcode := OPCODE_REQUEST;
                   sender_ethernet_address := mac_a; sender_ip_address := ip_a;
                   target_ethernet_address := ETHERNET_ZERO;
                   target_ip_address := ip_b |} |};
         {| header := {| dst := mac_b; src := mac_a; type := TYPE_ARP |};
            payload :=
              serialize_arp
                {| opcode := OPCODE_REPLY;
                   sender_ethernet_address := mac_a; sender_ip_address := ip_a;
                   target_ethernet_address := mac_b;
                   target_ip_address := ip_b |} |} ]
  ∧ queue_table_
      (recv_frame (send_datagram (send_datagram host_a dgram1 ip_b) dgram2 ip_b)
         request_from_b).2 !! ip_b = Some (0, [dgram1; dgram2])
  ∧ queue_table_
      (tick
         (recv_frame (send_datagram (send_datagram host_a dgram1 ip_b) dgram2 ip_b)
            request_from_b).2 5001) !! ip_b = None
  ∧ frame_queue_
      (tick
         (recv_frame (send_datagram (send_datagram host_a dgram1 ip_b) dgram2 ip_b)
            request_from_b).2 5001) =
      frame_queue_
        (recv_frame (send_datagram (send_datagram host_a dgram1 ip_b) dgram2 ip_b)
           request_from_b).2.
Proof.
  split; [by vm_compute|]. split; [by vm_compute|]. split; [by vm_compute|].
  split; [by apply request_from_b_carries|].
  repeat split; by vm_compute.
Qed.

(** Two datagrams for B from a fresh host A: one ARP request, and after B's
    reply the request followed by the two datagrams. *)
Lemma send_twice_single_request_witness :
  frame_queue_ (send_datagram (send_datagram host_a dgram1 ip_b) dgram2 ip_b) =
    [ {| header := {| dst := ETHERNET_BROADCAST; src := mac_a; type := TYPE_ARP |};
            payload :=
              serialize_arp
                {| opcode := OPCODE_REQUEST;
                   sender_ethernet_address := mac_a; sender_ip_address := ip_a;
                   target_ethernet_address := ETHERNET_ZERO;
                   target_ip_address := ip_b |} |} ]
  ∧ frame_queue_
      (recv_frame (send_datagram (send_datagram host_a dgram1 ip_b) dgram2 ip_b)
         reply_from_b).2 =
      [ {| header := {| dst := ETHERNET_BROADCAST; src := mac_a; type := TYPE_ARP |};
            payload :=
              serialize_arp
                {| opcode := OPCODE_REQUEST;
                   sender_ethernet_address := mac_a; sender_ip_address := ip_a;
                   target_ethernet_address := ETHERNET_ZERO;
                   target_ip_address := ip_b |} |};
         {| header := {| dst := mac_b; src := mac_a; type := TYPE_IPv4 |};
            payload := serialize_dgram dgram1 |};
         {| header := {| dst := mac_b; src := mac_a; type := TYPE_IPv4 |};
            payload := serialize_dgram dgram2 |} ].
Proof.
  destruct (send_twice_single_request host_a dgram1 dgram2 ip_b reply_from_b
              (arp_from_b OPCODE_REPLY ip_a))
    as (Hfirst & Hsecond & _ & Hflush); [by vm_compute | by vm_compute |].
  split.
  - rewrite Hsecond. exact Hfirst.
  - apply Hflush; [by apply reply_from_b_carries | reflexivity | reflexivity].
Defined.

(** [a_resolved] is two sends and one receive away from a fresh interface. *)
Lemma a_resolved_reachable : reachable a_resolved.
Proof.
  unfold a_resolved, a_waiting, host_a.
  apply reachable_recv, reachable_send, reachable_send, reachable_new.
Defined.

(** B's address, learned at time 0: still cached at 29999 ms, gone at
    30001 ms, when a datagram for B causes a new ARP request. *)
Lemma cache_entry_lifetime_witness :
  (arp_table_ (ticks a_resolved [10000; 19999]) !! ip_b = Some (0, mac_b)
   ∧ frame_queue_ (send_datagram (ticks a_resolved [10000; 19999]) dgram1 ip_b) =
       frame_queue_ a_resolved
       ++ [ {| header := {| dst := mac_b; src := mac_a; type := TYPE_IPv4 |};
            payload := serialize_dgram dgram1 |} ])
  ∧ (arp_table_ (ticks a_resolved [10000; 19999; 2]) !! ip_b = None
     ∧ frame_queue_ (send_datagram (ticks a_resolved [10000; 19999; 2]) dgram1 ip_b) =
         frame_queue_ a_resolved
         ++ [ {| header := {| dst := ETHERNET_BROADCAST; src := mac_a; type := TYPE_ARP |};
            payload :=
              serialize_arp
                {| opcode := OPCODE_REQUEST;
                   sender_ethernet_address := mac_a; sender_ip_address := ip_a;
                   target_ethernet_address := ETHERNET_ZERO;
                   target_ip_address := ip_b |} |} ]).
Proof.
  assert (arp_table_ a_resolved !! ip_b = Some (0, mac_b)) as Hhit by (by vm_compute).
  split.
  - destruct (cache_entry_lifetime a_resolved ip_b 0 mac_b [10000; 19999] dgram1
                a_resolved_reachable Hhit)
      as (_ & Hkeep & _); [repeat constructor; lia | by vm_compute |].
    apply Hkeep. by vm_compute.
  - destruct (cache_entry_lifetime a_resolved ip_b 0 mac_b [10000; 19999; 2] dgram1
                a_resolved_reachable Hhit)
      as (_ & _ & Hgone); [repeat constructor; lia | by vm_compute |].
    destruct Hgone as (Ha & Hf & _); [by vm_compute|]. by split.
Defined.

(** The datagrams waiting for B since time 0 are dropped at 5001 ms. *)
Lemma waiting_entry_dropped_witness :
  queue_table_ a_waiting !! ip_b = Some (0, [dgram1; dgram2])
  ∧ queue_table_ (ticks a_waiting [5001]) !! ip_b = None
  ∧ frame_queue_ (ticks a_waiting [5001]) = frame_queue_ a_waiting
  ∧ ticks a_waiting [5001] =
      ticks (set_queue_table (delete ip_b (queue_table_ a_waiting)) a_waiting) [5001].
Proof.
  assert (queue_table_ a_waiting !! ip_b = Some (0, [dgram1; dgram2])) as Hl
    by (by vm_compute).
  split; [exact Hl|].
  apply (waiting_entry_dropped a_waiting ip_b 0 [dgram1; dgram2] [5001] Hl).
  - by vm_compute.
  - repeat constructor; lia.
  - discriminate.
  - by vm_compute.
  - by vm_compute.
Defined.

(** A fresh host A learns B's address from B's request. *)
Lemma recv_frame_learns_sender_witness :
  (recv_frame host_a request_from_b).1 = None
  ∧ arp_table_ (recv_frame host_a request_from_b).2 =
      <[ip_b := (0, mac_b)]> (arp_table_ host_a).
Proof.
  apply (recv_frame_learns_sender host_a request_from_b
           (arp_from_b OPCODE_REQUEST ip_a)).
  by apply request_from_b_carries.
Defined.

(** A fresh host A answers B's request for A's address. *)
Lemma recv_frame_arp_request_witness :
  ∃ flushed,
    Forall (λ f, type (header f) = TYPE_IPv4 ∧ type (header f) ≠ TYPE_ARP) flushed
    ∧ frame_queue_ (recv_frame host_a request_from_b).2 =
        frame_queue_ host_a
        ++ [ {| header := {| dst := mac_b; src := mac_a; type := TYPE_ARP |};
                payload :=
                  serialize_arp
                    {| opcode := OPCODE_REPLY;
                       sender_ethernet_address := mac_a; sender_ip_address := ip_a;
                       target_ethernet_address := mac_b;
                       target_ip_address := ip_b |} |} ]
        ++ flushed.
Proof.
  destruct (recv_frame_arp_request host_a request_from_b
              (arp_from_b OPCODE_REQUEST ip_a))
    as (flushed & Hall & Hours & _); [by apply request_from_b_carries | done |].
  exists flushed. split; [exact Hall|]. by apply Hours.
Defined.

(** A frame for B's hardware address and an IPv4 frame with an empty
    payload are dropped by host A. *)
Lemma recv_frame_discards_witness :
  recv_frame a_waiting frame_for_other = (None, a_waiting)
  ∧ recv_frame a_waiting bad_ipv4_frame = (None, a_waiting).
Proof.
  split; apply recv_frame_discards.
  - left. intros [Hd|Hd]; discriminate Hd.
  - right. left. split; [by left|]. split; [done | by vm_compute].
Defined.

(** An IPv4 frame for host A yields its datagram. *)
Lemma recv_frame_ipv4_witness :
  recv_frame a_waiting good_ipv4_frame = (Some dgram1, a_waiting).
Proof.
  apply (recv_frame_ipv4 a_waiting good_ipv4_frame); [by left | done].
Defined.
End TwoHosts.

(** ** The frame queue, the identity and the sweeps *)

Section Queues.
Context `{Codec}.
Implicit Types (s : NetworkInterface) (frame : EthernetFrame) (arpmsg : ARPMessage).

Lemma drain_frames_eq n s :
  drain_frames n s =
    (take n (frame_queue_ s), set_frame_queue (drop n (frame_queue_ s)) s).
Proof.
  revert s. induction n as [|n IH]; intros s.
  - by destruct s.
  - cbn [drain_frames]. unfold maybe_send.
    destruct (frame_queue_ s) as [|frame rest] eqn:Hq.
    + destruct s; cbn in *. by subst.
    + rewrite IH. by destruct s.
Qed.

(** X1: [maybe_send] hands the frames out oldest first.  Calling it as often
    as there are frames returns exactly [frame_queue_], in order, and leaves
    the queue empty and everything else as it was; a further call returns
    nothing and changes nothing. *)
Theorem maybe_send_fifo s :
  drain_frames (length (frame_queue_ s)) s = (frame_queue_ s, set_frame_queue [] s)
  ∧ maybe_send (set_frame_queue [] s) = (None, set_frame_queue [] s)
  ∧ ∀ n, (drain_frames n s).1 = take n (frame_queue_ s).
Proof.
  split; [|split; [done|]].
  - by rewrite drain_frames_eq, firstn_all, drop_all.
  - intros n. by rewrite drain_frames_eq.
Qed.

(** X2: [send_datagram], [recv_frame] and [tick] never drop or reorder a
    frame that is ready to be sent: the old [frame_queue_] is a prefix of the
    new one. *)
Theorem frame_queue_only_grows s :
  (∀ dgram next_hop, frame_queue_ s `prefix_of` frame_queue_ (send_datagram s dgram next_hop))
  ∧ (∀ frame, frame_queue_ s `prefix_of` frame_queue_ (recv_frame s frame).2)
  ∧ (∀ ms, frame_queue_ (tick s ms) = frame_queue_ s).
Proof.
  repeat split.
  - intros dgram next_hop. unfold send_datagram.
    destruct (arp_table_ s !! next_hop) as [[ta mac]|]; [by eexists|].
    destruct (queue_table_ s !! next_hop) as [[t q]|]; [by exists [] ; rewrite app_nil_r | by eexists].
  - intros frame.
    destruct (recv_frame_cases s frame) as [-> | [arpmsg Harp]]; [done|].
    rewrite (recv_frame_arp _ _ _ Harp). cbn.
    case_bool_decide; rewrite flush_waiting_eq; cbn.
    + rewrite <- app_assoc. by eexists.
    + by eexists.
Qed.

(** X3: the hardware and IP address given to the constructor are never
    changed, and only [tick] moves the clock. *)
Theorem identity_and_clock_kept s :
  (∀ dgram next_hop,
     ethernet_address_ (send_datagram s dgram next_hop) = ethernet_address_ s
     ∧ ip_address_ (send_datagram s dgram next_hop) = ip_address_ s
     ∧ curr_time_ (send_datagram s dgram next_hop) = curr_time_ s)
  ∧ (∀ frame,
     ethernet_address_ (recv_frame s frame).2 = ethernet_address_ s
     ∧ ip_address_ (recv_frame s frame).2 = ip_address_ s
     ∧ curr_time_ (recv_frame s frame).2 = curr_time_ s)
  ∧ (∀ ms,
     ethernet_address_ (tick s ms) = ethernet_address_ s
     ∧ ip_address_ (tick s ms) = ip_address_ s)
  ∧ ethernet_address_ (maybe_send s).2 = ethernet_address_ s
  ∧ ip_address_ (maybe_send s).2 = ip_address_ s
  ∧ curr_time_ (maybe_send s).2 = curr_time_ s.
Proof.
  split; [|split; [|split]].
  - intros dgram next_hop. unfold send_datagram.
    destruct (arp_table_ s !! next_hop) as [[ta mac]|]; [done|].
    by destruct (queue_table_ s !! next_hop) as [[t q]|].
  - intros frame.
    destruct (recv_frame_cases s frame) as [-> | [arpmsg Harp]]; [done|].
    rewrite (recv_frame_arp _ _ _ Harp). cbn.
    case_bool_decide; by rewrite flush_waiting_eq.
  - done.
  - unfold maybe_send. by destruct (frame_queue_ s).
Qed.

(** X4: [recv_frame] returns a datagram exactly when the frame is addressed
    to the interface (or broadcast), has the IPv4 type and its payload
    parses, and the datagram is the parser's. *)
Theorem recv_frame_returns_datagram s frame dgram :
  (recv_frame s frame).1 = Some dgram ↔
    addressed_to s frame ∧ type (header frame) = TYPE_IPv4
    ∧ parse_dgram (payload frame) = Some dgram.
Proof.
  split.
  - unfold addressed_to, recv_frame.
    destruct (decide (dst (header frame) = ethernet_address_ s)) as [Hl|Hl];
      destruct (decide (dst (header frame) = ETHERNET_BROADCAST)) as [Hb|Hb];
      rewrite ?(bool_decide_eq_true_2 _ Hl), ?(bool_decide_eq_false_2 _ Hl),
              ?(bool_decide_eq_true_2 _ Hb), ?(bool_decide_eq_false_2 _ Hb); cbn;
      try done;
      (case_bool_decide as Hv4;
       [ destruct (parse_dgram (payload frame)); cbn; [|done];
         intros [= ->]; auto
       | case_bool_decide; [|done];
         destruct (parse_arp (payload frame)) as [m|]; [|done];
         by destruct (bool_decide (opcode m = OPCODE_REQUEST)
                      && bool_decide (target_ip_address m = ip_address_ s)) ]).
  - intros (Hdst & Hty & Hparse).
    assert (bool_decide (dst (header frame) = ethernet_address_ s)
            || bool_decide (dst (header frame) = ETHERNET_BROADCAST) = true) as Haddr.
    { destruct Hdst as [Hd|Hd]; rewrite (bool_decide_eq_true_2 _ Hd);
        [done | apply orb_true_r]. }
    unfold recv_frame. by rewrite Haddr, (bool_decide_eq_true_2 _ Hty), Hparse.
Qed.

(** X5: a frame whose type is neither IPv4 nor ARP is dropped whatever its
    destination and payload: nothing is returned and the state is as
    before. *)
Theorem recv_frame_other_type s frame :
  type (header frame) ≠ TYPE_IPv4 →
  type (header frame) ≠ TYPE_ARP →
  recv_frame s frame = (None, s).
Proof.
  intros Hv4 Harp. unfold recv_frame.
  rewrite (bool_decide_eq_false_2 _ Hv4), (bool_decide_eq_false_2 _ Harp).
  by destruct (bool_decide (dst (header frame) = ethernet_address_ s)
               || bool_decide (dst (header frame) = ETHERNET_BROADCAST)).
Qed.
End Queues.

(** ** More on the sweeps *)

Section Sweeps.
Context `{Codec}.
Implicit Types (s : NetworkInterface).

(** X6: [erase_expired_item], which first collects the keys to discard and
    then erases them, keeps exactly the entries whose age, computed in
    wrapping [size_t] arithmetic, is at most [expire_time], and keeps them
    unchanged. *)
Theorem erase_expired_item_keeps {V : Type} now (m : gmap Z (Z * V)) e k t v :
  erase_expired_item now m e !! k = Some (t, v) ↔
    m !! k = Some (t, v) ∧ wrap_size_t (now - t) ≤ e.
Proof.
  rewrite erase_expired_item_lookup.
  destruct (m !! k) as [[t0 v0]|]; [|split; [done | by intros [? _]]].
  case_bool_decide as Hexp.
  - split; [done|]. intros [[= <- <-] Hle]. lia.
  - split; [intros [= <- <-]; split; [done|lia] | by intros [? _]].
Qed.

(** Sweeping at a later time after sweeping at an earlier one is sweeping at
    the later time, provided no entry looks younger at the later time. *)
Lemma erase_expired_item_twice {V : Type} now1 now2 (m : gmap Z (Z * V)) e :
  (∀ k t v, m !! k = Some (t, v) →
     wrap_size_t (now1 - t) > e → wrap_size_t (now2 - t) > e) →
  erase_expired_item now2 (erase_expired_item now1 m e) e = erase_expired_item now2 m e.
Proof.
  intros Hmono. apply map_eq. intros k.
  rewrite !erase_expired_item_lookup.
  destruct (m !! k) as [[t v]|] eqn:Hk; [|done].
  destruct (decide (wrap_size_t (now1 - t) > e)) as [Hold|Hyoung].
  - rewrite (bool_decide_eq_true_2 _ Hold).
    by rewrite (bool_decide_eq_true_2 _ (Hmono _ _ _ Hk Hold)).
  - by rewrite (bool_decide_eq_false_2 _ Hyoung).
Qed.

(** X7: [tick] only removes.  Each table after the call is contained in the
    table before, so an entry that is kept has its stamp and contents
    unchanged and no entry appears; and a [tick] of 0 ms right after a
    [tick] changes nothing. *)
Theorem tick_only_removes s ms :
  arp_table_ (tick s ms) ⊆ arp_table_ s
  ∧ queue_table_ (tick s ms) ⊆ queue_table_ s
  ∧ tick (tick s ms) 0 = tick s ms.
Proof.
  split; [|split].
  - apply map_subseteq_spec. intros ip [t mac]. rewrite tick_arp_lookup.
    destruct (arp_table_ s !! ip) as [[t0 mac0]|]; [|done]. by case_bool_decide.
  - apply map_subseteq_spec. intros ip [t q]. rewrite tick_queue_lookup.
    destruct (queue_table_ s !! ip) as [[t0 q0]|]; [|done]. by case_bool_decide.
  - unfold tick, set_queue_table, set_arp_table, set_curr_time; cbn.
    assert (wrap_size_t (wrap_size_t (curr_time_ s + ms) + 0)
            = wrap_size_t (curr_time_ s + ms)) as ->.
    { unfold wrap_size_t. rewrite Z.add_0_r. apply Z.mod_mod.
      unfold SIZE_WIDTH. lia. }
    by rewrite !erase_expired_item_twice.
Qed.

Lemma tick_tick s a b :
  stamps_ok s → 0 ≤ a → 0 ≤ b → curr_time_ s + a + b < 2 ^ SIZE_WIDTH →
  tick (tick s a) b = tick s (a + b).
Proof.
  intros [Hclock Harp Hqueue _] Ha Hb Hsum.
  unfold tick, set_queue_table, set_arp_table, set_curr_time; cbn.
  assert (wrap_size_t (wrap_size_t (curr_time_ s + a) + b)
          = wrap_size_t (curr_time_ s + (a + b))) as ->.
  { rewrite (wrap_size_t_small (curr_time_ s + a)) by lia. f_equal. lia. }
  f_equal.
  - apply erase_expired_item_twice. intros k t mac Hk.
    destruct (Harp _ _ _ Hk) as [Ht _].
    rewrite !age_no_overflow by lia. lia.
  - apply erase_expired_item_twice. intros k t q Hk.
    pose proof (Hqueue _ _ _ Hk) as Ht.
    rewrite !age_no_overflow by lia. lia.
Qed.

(** X8: successive calls of [tick] amount to one call with the sum: when no
    stamp lies in the future and the clock does not overflow, one or more
    calls of [tick] leave the state a single call with the total time
    leaves. *)
Theorem ticks_as_one_tick s ms :
  stamps_ok s →
  Forall (λ m, 0 ≤ m) ms →
  ms ≠ [] →
  curr_time_ s + total ms < 2 ^ SIZE_WIDTH →
  ticks s ms = tick s (total ms).
Proof.
  intros Hok Hms Hne. revert s Hok.
  induction Hms as [|m ms Hm Hms IH]; [done|]. clear Hne.
  intros s Hok Hsum. cbn [ticks foldl]. fold (ticks (tick s m) ms).
  pose proof (total_nonneg _ Hms) as Hpos.
  pose proof (clock_range s Hok) as Hclock.
  change (total (m :: ms)) with (m + total ms) in Hsum |- *.
  destruct ms as [|m' ms'].
  - unfold total; cbn. by rewrite Z.add_0_r.
  - assert (curr_time_ (tick s m) = curr_time_ s + m) as Hnow.
    { rewrite tick_curr_time. apply wrap_size_t_small. lia. }
    rewrite IH; [| done | by apply stamps_ok_tick; [|lia..] | rewrite Hnow; lia].
    apply tick_tick; [done | lia | done | lia].
Qed.
End Sweeps.

(** ** What every reachable state satisfies *)

Section Reachable.
Context `{Codec}.
Implicit Types (s : NetworkInterface) (frame : EthernetFrame) (arpmsg : ARPMessage).

(** X9: in every state reachable from a fresh interface (the clock not
    overflowing) the clock is within [size_t], no stamp lies in the future, a
    cached address is at most 30000 ms old, and an entry waiting for an IP
    address is never younger than the cached address of that IP. *)
Theorem reachable_time_stamps s ip :
  reachable s →
  0 ≤ curr_time_ s < 2 ^ SIZE_WIDTH
  ∧ (∀ t mac, arp_table_ s !! ip = Some (t, mac) →
       0 ≤ t ≤ curr_time_ s ∧ curr_time_ s - t ≤ 30000)
  ∧ (∀ t q, queue_table_ s !! ip = Some (t, q) → 0 ≤ t ≤ curr_time_ s)
  ∧ (∀ t mac t' q, arp_table_ s !! ip = Some (t, mac) →
       queue_table_ s !! ip = Some (t', q) → t' ≤ t).
Proof.
  intros [Hclock Harp Hqueue Hord]%reachable_stamps_ok.
  split; [done|]. split; [apply Harp|]. split; [apply Hqueue | apply Hord].
Qed.

Lemma empty_shadowed_ext s s' :
  arp_table_ s' = arp_table_ s → queue_table_ s' = queue_table_ s →
  ip_address_ s' = ip_address_ s → empty_shadowed s → empty_shadowed s'.
Proof. unfold empty_shadowed. intros -> -> ->. done. Qed.

Lemma empty_shadowed_send s dgram next_hop :
  empty_shadowed s → empty_shadowed (send_datagram s dgram next_hop).
Proof.
  intros Hs. unfold send_datagram.
  destruct (arp_table_ s !! next_hop) as [[ta mac]|]; [by apply (empty_shadowed_ext s)|].
  destruct (queue_table_ s !! next_hop) as [[t q]|]; intros ip t'; cbn;
    (rewrite lookup_insert; case_decide as Heq; [|apply Hs]).
  - intros [= _ Hq]. by destruct q.
  - done.
Qed.

Lemma empty_shadowed_flush s arpmsg :
  empty_shadowed s →
  sender_ip_address arpmsg = ip_address_ s
  ∨ is_Some (arp_table_ s !! sender_ip_address arpmsg) →
  empty_shadowed (flush_waiting arpmsg s).
Proof.
  intros Hs Hkey ip t. rewrite flush_waiting_eq. cbn.
  rewrite lookup_insert. case_decide as Heq; [by subst ip | apply Hs].
Qed.

Lemma empty_shadowed_recv s frame :
  empty_shadowed s → empty_shadowed (recv_frame s frame).2.
Proof.
  intros Hs. destruct (recv_frame_cases s frame) as [-> | [arpmsg Harp]]; [done|].
  rewrite (recv_frame_arp _ _ _ Harp). cbn.
  assert (empty_shadowed
            (set_arp_table
               (<[sender_ip_address arpmsg :=
                    (curr_time_ s, sender_ethernet_address arpmsg)]> (arp_table_ s)) s))
    as Hlearned.
  { intros ip t Hq. destruct (Hs ip t Hq) as [->|Hc]; [by left|]. right. cbn.
    rewrite lookup_insert. by case_decide. }
  case_bool_decide; apply empty_shadowed_flush.
  - by eapply (empty_shadowed_ext (set_arp_table _ s)).
  - by left.
  - done.
  - right. cbn. by rewrite lookup_insert_eq.
Qed.

Lemma empty_shadowed_tick s ms :
  stamps_ok s → 0 ≤ ms → curr_time_ s + ms < 2 ^ SIZE_WIDTH →
  empty_shadowed s → empty_shadowed (tick s ms).
Proof.
  intros [Hclock Harp Hqueue Hord] Hms Hsum Hs ip t.
  rewrite tick_queue_lookup, tick_arp_lookup.
  destruct (queue_table_ s !! ip) as [[t0 q0]|] eqn:Hq; [|done].
  pose proof (Hqueue _ _ _ Hq) as Ht0.
  rewrite age_no_overflow by done.
  case_bool_decide as Hexp; [done|]. intros [= -> ->].
  destruct (Hs ip t Hq) as [->|[[ta mac] Ha]]; [by left|]. right.
  rewrite Ha. destruct (Harp _ _ _ Ha) as [Hta _].
  pose proof (Hord _ _ _ _ _ Ha Hq).
  rewrite age_no_overflow by done.
  rewrite bool_decide_eq_false_2; [done | lia].
Qed.

(** X10: in every reachable state an entry of the waiting table with an
    empty queue belongs to the local IP address or to an IP address that is
    in the cache. *)
Theorem reachable_empty_shadowed s ip t :
  reachable s →
  queue_table_ s !! ip = Some (t, []) →
  ip = ip_address_ s ∨ is_Some (arp_table_ s !! ip).
Proof.
  intros Hreach. revert ip t. change (empty_shadowed s).
  induction Hreach as [mac0 ip0 | s dgram next_hop Hr IH | s frame Hr IH
                      | s ms Hr IH Hms Hsum | s Hr IH].
  - intros ip t. cbn. by rewrite lookup_empty.
  - by apply empty_shadowed_send.
  - by apply empty_shadowed_recv.
  - apply empty_shadowed_tick; [by apply reachable_stamps_ok | done..].
  - unfold maybe_send. destruct (frame_queue_ s); [done|].
    by apply (empty_shadowed_ext s).
Qed.
End Reachable.

(** ** Operations in sequence *)

Section Sequences.
Context `{Codec}.
Implicit Types (s a b : NetworkInterface) (frame : EthernetFrame) (arpmsg : ARPMessage).

Lemma recv_frame_ethernet_address s frame :
  ethernet_address_ (recv_frame s frame).2 = ethernet_address_ s.
Proof.
  destruct (recv_frame_cases s frame) as [-> | [arpmsg Harp]]; [done|].
  rewrite (recv_frame_arp _ _ _ Harp). cbn.
  case_bool_decide; by rewrite flush_waiting_eq.
Qed.


Lemma send_datagram_miss s dgram next_hop :
  arp_table_ s !! next_hop = None →
  queue_table_ s !! next_hop = None →
  send_datagram s dgram next_hop =
    push_frame (arp_request_frame s next_hop)
      (set_queue_table (<[next_hop := (curr_time_ s, [dgram])]> (queue_table_ s)) s).
Proof. intros Ha Hq. unfold send_datagram. by rewrite Ha, Hq. Qed.

(** X11: with neither a cached address nor a waiting entry for the next hop,
    [send_datagram] pushes one frame, a broadcast ARP request that names the
    local hardware and IP address as sender, the next hop as target IP and
    the all-zero hardware address as target; it records the datagram as
    waiting since the current time and leaves the cache alone. *)
Theorem send_datagram_requests_address s dgram next_hop :
  arp_table_ s !! next_hop = None →
  queue_table_ s !! next_hop = None →
  frame_queue_ (send_datagram s dgram next_hop) =
    frame_queue_ s
    ++ [ {| header := {| dst := ETHERNET_BROADCAST; src := ethernet_address_ s;
                         type := TYPE_ARP |};
            payload :=
              serialize_arp
                {| opcode := OPCODE_REQUEST;
                   sender_ethernet_address := ethernet_address_ s;
                   sender_ip_address := ip_address_ s;
                   target_ethernet_address := ETHERNET_ZERO;
                   target_ip_address := next_hop |} |} ]
  ∧ queue_table_ (send_datagram s dgram next_hop) =
      <[next_hop := (curr_time_ s, [dgram])]> (queue_table_ s)
  ∧ arp_table_ (send_datagram s dgram next_hop) = arp_table_ s.
Proof. intros Ha Hq. by rewrite send_datagram_miss. Qed.

(** X12: once an ARP message from an IP address has been received, a
    datagram sent to that IP address goes out at once, in an IPv4 frame to
    the hardware address the message gave, whatever the cache held before. *)
Theorem learned_address_used s frame arpmsg dgram :
  carries_arp s frame arpmsg →
  frame_queue_ (send_datagram (recv_frame s frame).2 dgram (sender_ip_address arpmsg)) =
    frame_queue_ (recv_frame s frame).2
    ++ [ {| header := {| dst := sender_ethernet_address arpmsg;
                         src := ethernet_address_ s; type := TYPE_IPv4 |};
            payload := serialize_dgram dgram |} ].
Proof.
  intros Harp. unfold send_datagram.
  rewrite (recv_frame_arp_table _ _ _ Harp), lookup_insert_eq. cbn.
  unfold ipv4_frame. by rewrite recv_frame_ethernet_address.
Qed.

(** X13: an ARP request for the local IP address is answered, and then the
    flush loop runs on the rewritten message: it sends the datagrams waiting
    for the local IP address to the local hardware address and empties that
    entry (creating it when there is none).  The datagrams waiting for the
    requester, when its IP address is another one, stay where they are. *)
Theorem recv_frame_request_for_us s frame arpmsg :
  carries_arp s frame arpmsg →
  request_for_us s arpmsg →
  frame_queue_ (recv_frame s frame).2 =
    frame_queue_ s
    ++ [ {| header := {| dst := sender_ethernet_address arpmsg;
                         src := ethernet_address_ s; type := TYPE_ARP |};
            payload :=
              serialize_arp
                {| opcode := OPCODE_REPLY;
                   sender_ethernet_address := ethernet_address_ s;
                   sender_ip_address := ip_address_ s;
                   target_ethernet_address := sender_ethernet_address arpmsg;
                   target_ip_address := sender_ip_address arpmsg |} |} ]
    ++ ((λ dgram,
           {| header := {| dst := ethernet_address_ s; src := ethernet_address_ s;
                           type := TYPE_IPv4 |};
              payload := serialize_dgram dgram |})
          <$> (waiting_entry s (ip_address_ s)).2)
  ∧ queue_table_ (recv_frame s frame).2 =
      <[ip_address_ s := ((waiting_entry s (ip_address_ s)).1, [])]> (queue_table_ s)
  ∧ (sender_ip_address arpmsg ≠ ip_address_ s →
     queue_table_ (recv_frame s frame).2 !! sender_ip_address arpmsg =
       queue_table_ s !! sender_ip_address arpmsg).
Proof.
  intros Harp Hreq. rewrite (recv_frame_arp _ _ _ Harp). cbn.
  rewrite (bool_decide_eq_true_2 _ Hreq), flush_waiting_eq. cbn.
  split; [by rewrite <- app_assoc|]. split; [done|].
  intros Hne. by rewrite lookup_insert_ne.
Qed.

End Sequences.

(** ** The request window and repeated messages *)

Section Window.
Context `{Codec}.
Implicit Types (s : NetworkInterface) (frame : EthernetFrame) (arpmsg : ARPMessage).

Lemma ticks_arp_none s ms ip :
  arp_table_ s !! ip = None → arp_table_ (ticks s ms) !! ip = None.
Proof.
  intros Hnone. induction ms as [|m ms IH] using rev_ind; [done|].
  by rewrite ticks_snoc, tick_arp_lookup, IH.
Qed.

Lemma ticks_waiting_young s ip t q ms :
  queue_table_ s !! ip = Some (t, q) →
  0 ≤ t ≤ curr_time_ s →
  Forall (λ m, 0 ≤ m) ms →
  curr_time_ s + total ms < 2 ^ SIZE_WIDTH →
  curr_time_ s + total ms ≤ t + 5000 →
  queue_table_ (ticks s ms) !! ip = Some (t, q).
Proof.
  intros Hl Ht. induction ms as [|m ms IH] using rev_ind; intros Hms Hsum Hyoung; [done|].
  apply Forall_app in Hms as [Hms Hm]. apply Forall_inv in Hm. cbn beta in Hm.
  pose proof (total_nonneg _ Hms) as Hpos. rewrite total_snoc in Hsum, Hyoung.
  pose proof (ticks_curr_time s ms ltac:(lia) Hms ltac:(lia)) as Hnow.
  rewrite ticks_snoc, tick_queue_lookup, IH by (done || lia).
  rewrite age_no_overflow by (rewrite ?Hnow; done || lia). rewrite Hnow.
  rewrite bool_decide_eq_false_2; [done | lia].
Qed.

Lemma ticks_waiting_old s ip t q ms :
  queue_table_ s !! ip = Some (t, q) →
  0 ≤ t ≤ curr_time_ s →
  Forall (λ m, 0 ≤ m) ms →
  ms ≠ [] →
  curr_time_ s + total ms < 2 ^ SIZE_WIDTH →
  t + 5000 < curr_time_ s + total ms →
  queue_table_ (ticks s ms) !! ip = None.
Proof.
  intros Hl Ht Hms Hne Hsum Hold.
  destruct ms as [|m ms _] using rev_ind; [done|].
  apply Forall_app in Hms as [Hms Hm]. apply Forall_inv in Hm. cbn beta in Hm.
  pose proof (total_nonneg _ Hms) as Hpos. rewrite total_snoc in Hsum, Hold.
  pose proof (ticks_curr_time s ms ltac:(lia) Hms ltac:(lia)) as Hnow.
  rewrite ticks_snoc, tick_queue_lookup.
  destruct (ticks_queue_lookup s ms ip) as [-> | ->]; [|done].
  rewrite Hl, age_no_overflow by (rewrite ?Hnow; done || lia). rewrite Hnow.
  rewrite bool_decide_eq_true_2; [done | lia].
Qed.

(** X15: the window of an ARP request.  Let an entry be waiting for [ip]
    since time [t], with no cached address, and let calls of [tick] advance
    the clock without overflow.  While the clock is at most [t + 5000],
    [send_datagram] to [ip] pushes no frame and appends the datagram to the
    entry, whose stamp stays [t]; once one or more calls have taken the clock
    past [t + 5000], [send_datagram] to [ip] pushes a new ARP request and the
    datagram waits alone in a new entry stamped with the current time. *)
Theorem request_window s ip t q ms dgram :
  arp_table_ s !! ip = None →
  queue_table_ s !! ip = Some (t, q) →
  0 ≤ t ≤ curr_time_ s →
  Forall (λ m, 0 ≤ m) ms →
  curr_time_ s + total ms < 2 ^ SIZE_WIDTH →
  (curr_time_ s + total ms ≤ t + 5000 →
     frame_queue_ (send_datagram (ticks s ms) dgram ip) = frame_queue_ s
     ∧ queue_table_ (send_datagram (ticks s ms) dgram ip) !! ip = Some (t, q ++ [dgram]))
  ∧ (ms ≠ [] → t + 5000 < curr_time_ s + total ms →
     frame_queue_ (send_datagram (ticks s ms) dgram ip) =
       frame_queue_ s
       ++ [ {| header := {| dst := ETHERNET_BROADCAST; src := ethernet_address_ s;
                               type := TYPE_ARP |};
               payload :=
                 serialize_arp
                   {| opcode := OPCODE_REQUEST;
                      sender_ethernet_address := ethernet_address_ s;
                      sender_ip_address := ip_address_ s;
                      target_ethernet_address := ETHERNET_ZERO;
                      target_ip_address := ip |} |} ]
     ∧ queue_table_ (send_datagram (ticks s ms) dgram ip) !! ip =
         Some (curr_time_ s + total ms, [dgram])).
Proof.
  intros Ha Hl Ht Hms Hsum.
  pose proof (ticks_arp_none s ms ip Ha) as Ha'.
  pose proof (ticks_curr_time s ms ltac:(lia) Hms Hsum) as Hnow.
  destruct (ticks_identity s ms) as [Hmac Hip].
  split.
  - intros Hyoung. unfold send_datagram.
    rewrite Ha', (ticks_waiting_young s ip t q ms) by done. cbn.
    by rewrite ticks_frame_queue, lookup_insert_eq.
  - intros Hne Hold. unfold send_datagram.
    rewrite Ha', (ticks_waiting_old s ip t q ms) by done. cbn.
    unfold arp_request_frame, arp_request.
    by rewrite ticks_frame_queue, Hmac, Hip, lookup_insert_eq, Hnow.
Qed.

(** X16: an ARP message that is not a request for the local address has its
    whole effect the first time: receiving the same frame again right away
    changes nothing, so no waiting datagram is sent twice. *)
Theorem recv_frame_again s frame arpmsg :
  carries_arp s frame arpmsg →
  ¬ request_for_us s arpmsg →
  recv_frame (recv_frame s frame).2 frame = (None, (recv_frame s frame).2).
Proof.
  intros Harp Hnot.
  assert (carries_arp (recv_frame s frame).2 frame arpmsg) as Harp'.
  { destruct Harp as (Hdst & Hty & Hparse). split; [|done].
    unfold addressed_to. by rewrite recv_frame_ethernet_address. }
  assert (¬ request_for_us (recv_frame s frame).2 arpmsg) as Hnot'.
  { intros [Hop Htg]. apply Hnot. split; [done|]. rewrite Htg.
    rewrite (recv_frame_arp_flush _ _ _ Harp Hnot). by rewrite flush_waiting_eq. }
  rewrite (recv_frame_arp _ _ _ Harp'). cbn zeta.
  rewrite (bool_decide_eq_false_2 _ Hnot'). f_equal.
  rewrite (recv_frame_arp_flush _ _ _ Harp Hnot).
  rewrite !flush_waiting_eq. unfold waiting_entry.
  destruct s as [mac0 ip0 arp0 qt0 fq0 now0].
  unfold set_queue_table, set_frame_queue, set_arp_table; cbn.
  rewrite lookup_insert_eq. cbn.
  by rewrite !insert_insert_eq, app_nil_r.
Qed.
End Window.

(** ** The further properties on two hosts *)

Section TwoHostsAgain.
#[local] Existing Instances Demo.link Demo.codec.
Import Demo.

Lemma a_waiting_reachable : reachable a_waiting.
Proof.
  unfold a_waiting, host_a. apply reachable_send, reachable_send, reachable_new.
Defined.

(** A frame with the IPv6 type is dropped by host A. *)
Lemma recv_frame_other_type_witness :
  recv_frame a_waiting ipv6_frame = (None, a_waiting).
Proof. apply (recv_frame_other_type a_waiting ipv6_frame); discriminate. Defined.

(** From [a_waiting], ticks of 2000, 3000 and 1 ms are one tick of 6001 ms. *)
Lemma ticks_as_one_tick_witness :
  ticks a_waiting [2000; 3000; 1] = tick a_waiting (total [2000; 3000; 1]).
Proof.
  apply (ticks_as_one_tick a_waiting [2000; 3000; 1]).
  - apply reachable_stamps_ok, a_waiting_reachable.
  - repeat constructor; lia.
  - discriminate.
  - by vm_compute.
Defined.

(** The stamps of [a_resolved] at B's address. *)
Lemma reachable_time_stamps_witness :
  0 ≤ curr_time_ a_resolved < 2 ^ SIZE_WIDTH
  ∧ (∀ t mac, arp_table_ a_resolved !! ip_b = Some (t, mac) →
       0 ≤ t ≤ curr_time_ a_resolved ∧ curr_time_ a_resolved - t ≤ 30000)
  ∧ (∀ t q, queue_table_ a_resolved !! ip_b = Some (t, q) →
       0 ≤ t ≤ curr_time_ a_resolved)
  ∧ (∀ t mac t' q, arp_table_ a_resolved !! ip_b = Some (t, mac) →
       queue_table_ a_resolved !! ip_b = Some (t', q) → t' ≤ t).
Proof. apply (reachable_time_stamps a_resolved ip_b), a_resolved_reachable. Defined.

(** The empty queue left at B's address in [a_told] is covered by the cache. *)
Lemma reachable_empty_shadowed_witness :
  queue_table_ a_told !! ip_b = Some (0, [])
  ∧ (ip_b = ip_address_ a_told ∨ is_Some (arp_table_ a_told !! ip_b)).
Proof.
  assert (queue_table_ a_told !! ip_b = Some (0, [])) as Hl by (by vm_compute).
  split; [exact Hl|].
  apply (reachable_empty_shadowed a_told ip_b 0); [|exact Hl].
  unfold a_told, host_a. apply reachable_recv, reachable_new.
Defined.

(** A fresh host A asks for B's address. *)
Lemma send_datagram_requests_address_witness :
  frame_queue_ (send_datagram host_a dgram1 ip_b) =
    frame_queue_ host_a
    ++ [ {| header := {| dst := ETHERNET_BROADCAST; src := mac_a; type := TYPE_ARP |};
            payload :=
              serialize_arp
                {| opcode := OPCODE_REQUEST;
                   sender_ethernet_address := mac_a; sender_ip_address := ip_a;
                   target_ethernet_address := ETHERNET_ZERO;
                   target_ip_address := ip_b |} |} ]
  ∧ queue_table_ (send_datagram host_a dgram1 ip_b) =
      <[ip_b := (0, [dgram1])]> (queue_table_ host_a)
  ∧ arp_table_ (send_datagram host_a dgram1 ip_b) = arp_table_ host_a.
Proof.
  apply (send_datagram_requests_address host_a dgram1 ip_b); by vm_compute.
Defined.

(** After B's reply nobody asked for, a datagram for B goes to B at once. *)
Lemma learned_address_used_witness :
  frame_queue_ (send_datagram (recv_frame host_a reply_from_b).2 dgram1 ip_b) =
    frame_queue_ (recv_frame host_a reply_from_b).2
    ++ [ {| header := {| dst := mac_b; src := mac_a; type := TYPE_IPv4 |};
            payload := serialize_dgram dgram1 |} ].
Proof.
  apply (learned_address_used host_a reply_from_b (arp_from_b OPCODE_REPLY ip_a) dgram1).
  by apply reply_from_b_carries.
Defined.

(** B's request for A's address, with two datagrams waiting for B: the reply
    goes out, the two datagrams stay. *)
Lemma recv_frame_request_for_us_witness :
  frame_queue_ (recv_frame a_waiting request_from_b).2 =
    frame_queue_ a_waiting
    ++ [ {| header := {| dst := mac_b; src := mac_a; type := TYPE_ARP |};
            payload :=
              serialize_arp
                {| opcode := OPCODE_REPLY;
                   sender_ethernet_address := mac_a; sender_ip_address := ip_a;
                   target_ethernet_address := mac_b;
                   target_ip_address := ip_b |} |} ] ++ []
  ∧ queue_table_ (recv_frame a_waiting request_from_b).2 !! ip_b =
      queue_table_ a_waiting !! ip_b.
Proof.
  destruct (recv_frame_request_for_us a_waiting request_from_b
              (arp_from_b OPCODE_REQUEST ip_a))
    as (Hframes & _ & Hkept); [by apply request_from_b_carries | by split |].
  split; [exact Hframes | apply Hkept; discriminate].
Defined.


(** Two datagrams waiting for B since time 0: at 5000 ms a third one joins
    them, at 5001 ms it causes a new request. *)
Lemma request_window_witness :
  (frame_queue_ (send_datagram (ticks a_waiting [5000]) dgram1 ip_b) =
     frame_queue_ a_waiting
   ∧ queue_table_ (send_datagram (ticks a_waiting [5000]) dgram1 ip_b) !! ip_b =
       Some (0, [dgram1; dgram2] ++ [dgram1]))
  ∧ (frame_queue_ (send_datagram (ticks a_waiting [5000; 1]) dgram1 ip_b) =
       frame_queue_ a_waiting
       ++ [ {| header := {| dst := ETHERNET_BROADCAST; src := mac_a; type := TYPE_ARP |};
            payload :=
              serialize_arp
                {| opcode := OPCODE_REQUEST;
                   sender_ethernet_address := mac_a; sender_ip_address := ip_a;
                   target_ethernet_address := ETHERNET_ZERO;
                   target_ip_address := ip_b |} |} ]
     ∧ queue_table_ (send_datagram (ticks a_waiting [5000; 1]) dgram1 ip_b) !! ip_b =
         Some (curr_time_ a_waiting + total [5000; 1], [dgram1])).
Proof.
  split.
  - destruct (request_window a_waiting ip_b 0 [dgram1; dgram2] [5000] dgram1)
      as [Hyoung _];
      [by vm_compute | by vm_compute | by vm_compute | repeat constructor; lia
      | by vm_compute |].
    apply Hyoung. by vm_compute.
  - destruct (request_window a_waiting ip_b 0 [dgram1; dgram2] [5000; 1] dgram1)
      as [_ Hold];
      [by vm_compute | by vm_compute | by vm_compute | repeat constructor; lia
      | by vm_compute |].
    apply Hold; [discriminate | by vm_compute].
Defined.

(** B's reply received twice by [a_waiting]. *)
Lemma recv_frame_again_witness :
  recv_frame (recv_frame a_waiting reply_from_b).2 reply_from_b =
    (None, (recv_frame a_waiting reply_from_b).2).
Proof.
  apply (recv_frame_again a_waiting reply_from_b (arp_from_b OPCODE_REPLY ip_a)).
  - by apply reply_from_b_carries.
  - intros [Hop _]. discriminate Hop.
Defined.
End TwoHostsAgain.
